(** * flask_pymongo.wrappers: the tenant-scoping collection wrappers

    A shallow embedding of [flask_pymongo/wrappers.py].  Python objects that
    the wrappers mutate in place (dicts) live in a store indexed by
    references, so that what a caller observes after a call, and what two
    calls share, can be stated.  The methods of the wrapped pymongo classes
    are not part of the file: every [super(...)] call is recorded together
    with the store it sees, and answered by a driver that the development
    is parametrised over. *)

From stdpp Require Import gmap strings list fin_maps.

Local Open Scope string_scope.
Local Open Scope list_scope.
Set Warnings "-register-all".

(** ** Python values *)

(** References to dict objects and to [Database] objects. *)
Abbreviation loc := positive.
Abbreviation dbref := positive.

(** The values that reach the wrappers.  A dict is a reference: identity and
    in-place mutation matter.  Lists and tuples are never mutated by the
    wrappers and are kept as immutable sequences of values. *)
Inductive value :=
  | VNone
  | VBool (b : bool)
  | VInt (n : Z)
  | VStr (s : string)
  | VDict (l : loc)
  | VList (xs : list value)
  | VTuple (xs : list value).

(** The contents of a dict object are a [gmap string value] (documents have
    string keys); the store of dict objects is a [gmap loc (gmap string
    value)]. *)

(** [isinstance(v, dict)] *)
Definition isinstance_dict (v : value) : bool :=
  match v with VDict _ => true | _ => false end.

(** [isinstance(v, (list, tuple))] *)
Definition isinstance_list_tuple (v : value) : bool :=
  match v with VList _ | VTuple _ => true | _ => false end.

(** [d.update(other)] on contents: every pair of [other] is written into
    [d], the remaining pairs of [d] are kept. *)
Definition dict_update (d other : gmap string value) : gmap string value :=
  other ∪ d.

(** Truth value of a dict: non-empty. *)
Definition dict_truthy (d : gmap string value) : bool :=
  negb (bool_decide (size d = 0)).

(** The contents behind a reference.  Every reference a program holds is
    in the store; one that is not reads as the empty dict. *)
Definition dict_at (h : gmap loc (gmap string value)) (l : loc)
  : gmap string value :=
  default ∅ (h !! l).

(** ** Exceptions *)

Inductive exn :=
  | TypeError
  | NameError (name : string)
  | AttributeError (attr : string)
  | HTTPException (code : Z)
  | DriverError (what : string).

Inductive result (A : Type) :=
  | Ok (a : A)
  | Raise (e : exn).
Arguments Ok {A} a.
Arguments Raise {A} e.

(** ** Handles *)

(** A [Collection] wrapper: the [Database] object it was created with
    ([self.database], [self._Collection__database]) and its name. *)
Record Collection := mkCollection {
  database : dbref;
  name : string;
}.

(** A [Database] wrapper object: its name and its [_tenant_field].  The
    property setter stores whatever it is given; the field is used as an
    optional mapping, and that is its type here: [None] (the class
    attribute, never assigned) or a reference to a dict. *)
Record Database := mkDatabase {
  db_name : string;
  _tenant_field : option loc;
}.

(** ** Calls into the driver *)

Inductive driver_method :=
  | drv_save | drv_insert | drv_update | drv_remove
  | drv_find_one | drv_find | drv_find_and_modify.

(** A call [super(Collection, self).m(...)]: the positional arguments in
    order, and the keyword arguments. *)
Record call := mkCall {
  receiver : Collection;
  method : driver_method;
  positional : list value;
  keywords : gmap string value;
}.

(** ** Program state *)

(** The store of dicts, the [Database] objects, and what the wrappers did to
    the outside, in order: the driver calls (each with the store the driver
    was handed), the [abort] calls and the log lines. *)
Record state := mkState {
  heap : gmap loc (gmap string value);
  databases : gmap dbref Database;
  delegated : list (call * gmap loc (gmap string value));
  aborted : list Z;
  logged : list value;
}.

(** ** The monad of the wrappers: state and exceptions *)

Definition M (A : Type) : Type := state → result A * state.

Definition ret {A} (a : A) : M A := λ s, (Ok a, s).

Definition bind {A B} (m : M A) (k : A → M B) : M B :=
  λ s, match m s with
       | (Ok a, s') => k a s'
       | (Raise e, s') => (Raise e, s')
       end.

Definition raise {A} (e : exn) : M A := λ s, (Raise e, s).

Notation "x <- m ;; k" := (bind m (λ x, k))
  (at level 100, m at next level, right associativity).
Notation "m ;; k" := (bind m (λ _, k))
  (at level 100, right associativity).

(** [for x in xs: body(x)] *)
Fixpoint for_each {A} (xs : list A) (body : A → M unit) : M unit :=
  match xs with
  | [] => ret tt
  | x :: xs' => body x ;; for_each xs' body
  end.

(** *** Primitive effects *)

(** The [tenant_field] property of a [Database] object. *)
Definition tenant_field (db : dbref) : M (option loc) :=
  λ s, (Ok (d ← databases s !! db; _tenant_field d), s).

(** The setter of the property. *)
Definition set_tenant_field (db : dbref) (v : option loc) : M unit :=
  λ s, (Ok tt,
        mkState (heap s)
                (alter (λ d, mkDatabase (db_name d) v) db (databases s))
                (delegated s) (aborted s) (logged s)).

(** Truth value of a tenant field in an [if]: [None] and the empty dict are
    false. *)
Definition truth (tf : option loc) : M bool :=
  λ s, (Ok match tf with
           | None => false
           | Some p => dict_truthy (dict_at (heap s) p)
           end, s).

(** [target.update(other)]: only a dict has the method; the argument is
    the tenant field, a dict or [None]. *)
Definition update_method (target : value) (other : option loc) : M unit :=
  match target with
  | VDict l =>
      match other with
      | Some p =>
          λ s, (Ok tt,
                mkState (<[l := dict_update (dict_at (heap s) l)
                                            (dict_at (heap s) p)]> (heap s))
                        (databases s) (delegated s) (aborted s) (logged s))
      | None => raise TypeError
      end
  | _ => raise (AttributeError "update")
  end.

(** A dict display [{...}]: a new dict object. *)
Definition new_dict (d : gmap string value) : M value :=
  λ s, let l := fresh (dom (heap s)) in
       (Ok (VDict l),
        mkState (<[l := d]> (heap s))
                (databases s) (delegated s) (aborted s) (logged s)).

(** [logging.error(str(v))] *)
Definition logging_error (v : value) : M unit :=
  λ s, (Ok tt,
        mkState (heap s) (databases s) (delegated s) (aborted s)
                (logged s ++ [v])).

(** [flask.abort(code)]: signals the framework by raising. *)
Definition abort {A} (code : Z) : M A :=
  λ s, (Raise (HTTPException code),
        mkState (heap s) (databases s) (delegated s)
                (aborted s ++ [code]) (logged s)).

(** [*args] in a call: a tuple or list gives its items, a dict its keys
    (in the order of the map; Python 2 fixes none). *)
Definition star (v : value) : M (list value) :=
  match v with
  | VTuple xs | VList xs => ret xs
  | VDict l => λ s, (Ok (VStr <$> (map_to_list (dict_at (heap s) l)).*1), s)
  | _ => raise TypeError
  end.

(** The items a [for] loop over a list or tuple visits. *)
Definition items (v : value) : list value :=
  match v with
  | VList xs | VTuple xs => xs
  | _ => []
  end.

(** The dict that is the default value of [find_and_modify]'s [query]
    parameter: one object, made when the method is defined. *)
Definition find_and_modify_query_default : loc := 1%positive.

Definition initial_state : state :=
  mkState {[ find_and_modify_query_default := ∅ ]} ∅ [] [] [].

(** The objects the driver returns on attribute access, as far as the
    wrappers tell them apart with [isinstance]. *)
Inductive native :=
  | NativeDatabase (nm : string)
  | NativeCollection (nm : string)
  | NativeOther (v : value).

(** What the wrappers return on attribute access. *)
Inductive attribute :=
  | ADatabase (d : dbref)
  | ACollection (c : Collection)
  | ANative (a : native).

(** ** The wrappers *)

Section Wrappers.

(** The methods of the wrapped classes: what a call returns or raises, and
    what it does to the dicts it can reach. *)
Variable driver :
  call → gmap loc (gmap string value) →
  result value * gmap loc (gmap string value).

(** [__getattr__] of the wrapped client, database and collection classes. *)
Variable client_getattr : string → native.
Variable database_getattr : dbref → string → native.
Variable collection_getattr : Collection → string → native.

(** [super(Collection, self).m(...)]: the call is recorded with the store
    as the driver finds it. *)
Definition super_call (c : call) : M value :=
  λ s, let '(r, h) := driver c (heap s) in
       (r, mkState h (databases s) (delegated s ++ [(c, heap s)])
                   (aborted s) (logged s)).

(** [Database(self, name)]: a new wrapper object; [_tenant_field] is the
    class attribute, [None]. *)
Definition new_Database (nm : string) : M dbref :=
  λ s, let d := fresh (dom (databases s)) in
       (Ok d,
        mkState (heap s) (<[d := mkDatabase nm None]> (databases s))
                (delegated s) (aborted s) (logged s)).

(** [MongoClient.__getattr__] and [MongoReplicaSetClient.__getattr__] *)
Definition MongoClient_getattr (nm : string) : M attribute :=
  let attr := client_getattr nm in
  match attr with
  | NativeDatabase _ => d <- new_Database nm ;; ret (ADatabase d)
  | _ => ret (ANative attr)
  end.

(** [Database.__getattr__] *)
Definition Database_getattr (self : dbref) (nm : string) : attribute :=
  let attr := database_getattr self nm in
  match attr with
  | NativeCollection _ => ACollection (mkCollection self nm)
  | _ => ANative attr
  end.

(** [Collection.__getattr__] *)
Definition Collection_getattr (self : Collection) (nm : string) : attribute :=
  let attr := collection_getattr self nm in
  match attr with
  | NativeCollection attr_name =>
      let db := database self in
      ACollection (mkCollection db attr_name)
  | _ => ANative attr
  end.

(** [Collection.save] *)
Definition save (self : Collection)
    (to_save manipulate safe check_keys : value)
    (kwargs : gmap string value) : M value :=
  if negb (isinstance_dict to_save) then raise TypeError else
  tf <- tenant_field (database self) ;;
  b <- truth tf ;;
  (if b then
     tf <- tenant_field (database self) ;;
     update_method to_save tf
   else ret tt) ;;
  super_call (mkCall self drv_save
                [to_save; manipulate; safe; check_keys] kwargs).

(** [Collection.insert] *)
Definition insert (self : Collection)
    (doc_or_docs manipulate safe check_keys continue_on_error : value)
    (kwargs : gmap string value) : M value :=
  tf <- tenant_field (database self) ;;
  b <- truth tf ;;
  if b then
    (if isinstance_list_tuple doc_or_docs then
       for_each (items doc_or_docs) (λ doc,
         tf <- tenant_field (database self) ;;
         update_method doc tf ;;
         raise (NameError "updated_docsa"))
     else
       tf <- tenant_field (database self) ;;
       update_method doc_or_docs tf) ;;
    super_call (mkCall self drv_save
                  [doc_or_docs; manipulate; safe; check_keys;
                   continue_on_error] kwargs)
  else ret VNone.

(** [Collection.update] *)
Definition update (self : Collection)
    (spec document upsert manipulate safe multi check_keys : value)
    (kwargs : gmap string value) : M value :=
  if negb (isinstance_dict spec) then raise TypeError else
  if negb (isinstance_dict document) then raise TypeError else
  tf <- tenant_field (database self) ;;
  (if bool_decide (tf ≠ None) then
     tf <- tenant_field (database self) ;;
     update_method spec tf ;;
     tf <- tenant_field (database self) ;;
     update_method document tf
   else ret tt) ;;
  super_call (mkCall self drv_update
                [spec; document; upsert; manipulate; safe; multi; check_keys]
                kwargs).

(** [Collection.remove] *)
Definition remove (self : Collection) (spec_or_id safe : value)
    (kwargs : gmap string value) : M value :=
  tf <- tenant_field (database self) ;;
  b <- truth tf ;;
  spec_or_id <-
    (if b then
       spec_or_id <-
         (if negb (isinstance_dict spec_or_id)
          then new_dict {[ "_id" := spec_or_id ]}
          else ret spec_or_id) ;;
       tf <- tenant_field (database self) ;;
       update_method spec_or_id tf ;;
       ret spec_or_id
     else ret spec_or_id) ;;
  super_call (mkCall self drv_remove [spec_or_id; safe] kwargs).

(** [Collection.find_one] *)
Definition find_one (self : Collection) (spec_or_id : value)
    (args : list value) (kwargs : gmap string value) : M value :=
  tf <- tenant_field (database self) ;;
  logging_error (from_option VDict VNone tf) ;;
  tf <- tenant_field (database self) ;;
  b <- truth tf ;;
  spec_or_id <-
    (if b then
       spec_or_id <-
         (if negb (isinstance_dict spec_or_id)
          then new_dict {[ "_id" := spec_or_id ]}
          else ret spec_or_id) ;;
       tf <- tenant_field (database self) ;;
       update_method spec_or_id tf ;;
       ret spec_or_id
     else ret spec_or_id) ;;
  super_call (mkCall self drv_find_one (spec_or_id :: args) kwargs).

(** [Collection.find]: [args] is the tuple of positional arguments. *)
Definition find (self : Collection) (args : list value)
    (kwargs : gmap string value) : M value :=
  logging_error (VTuple args) ;;
  tf <- tenant_field (database self) ;;
  b <- truth tf ;;
  args <-
    (if b then
       args <-
         (match args with
          | [] => new_dict ∅
          | _ => ret (VTuple args)
          end) ;;
       tf <- tenant_field (database self) ;;
       update_method args tf ;;
       ret args
     else ret (VTuple args)) ;;
  positional <- star args ;;
  super_call (mkCall self drv_find positional kwargs).

(** [Collection.find_and_modify] *)
Definition find_and_modify (self : Collection)
    (query update upsert sort : value)
    (kwargs : gmap string value) : M value :=
  tf <- tenant_field (database self) ;;
  b <- truth tf ;;
  update <-
    (if b then
       tf <- tenant_field (database self) ;;
       update_method query tf ;;
       update <-
         (if negb (isinstance_dict update)
          then new_dict ∅
          else ret update) ;;
       tf <- tenant_field (database self) ;;
       update_method update tf ;;
       ret update
     else ret update) ;;
  super_call (mkCall self drv_find_and_modify
                [query; update; upsert; sort] kwargs).

(** The call of [self.find_one] on the unpacked [args] and [kwargs] of
    [find_one_or_404]: the first positional argument, or else the keyword of that name, or else the default [None],
    is bound to [spec_or_id]. *)
Definition call_find_one (self : Collection) (args : list value)
    (kwargs : gmap string value) : M value :=
  match args with
  | spec_or_id :: args' =>
      match kwargs !! "spec_or_id" with
      | Some _ => raise TypeError
      | None => find_one self spec_or_id args' kwargs
      end
  | [] =>
      match kwargs !! "spec_or_id" with
      | Some spec_or_id => find_one self spec_or_id [] (delete "spec_or_id" kwargs)
      | None => find_one self VNone [] kwargs
      end
  end.

(** [Collection.find_one_or_404] *)
Definition find_one_or_404 (self : Collection) (args : list value)
    (kwargs : gmap string value) : M value :=
  found <- call_find_one self args kwargs ;;
  (match found with
   | VNone => abort 404
   | _ => ret tt
   end) ;;
  ret found.

End Wrappers.

(** ** Vocabulary of the statements *)

(** The tenant field a collection handle reads in state [s]:
    [self.database.tenant_field]. *)
Definition tenant_of (s : state) (self : Collection) : option loc :=
  d ← databases s !! database self; _tenant_field d.

(** The tenant predicate of the handle is set to the dict [p], whose
    contents are the non-empty mapping [P]. *)
Definition predicate_set (s : state) (self : Collection) (p : loc)
    (P : gmap string value) : Prop :=
  tenant_of s self = Some p ∧ heap s !! p = Some P ∧ P ≠ ∅.

(** The driver calls made between state [s] and state [s'], each with the
    store the driver was handed. *)
Definition new_calls (s s' : state)
  : list (call * gmap loc (gmap string value)) :=
  drop (length (delegated s)) (delegated s').

(** In store [h], the value [v] is a mapping that has every pair of [P]. *)
Definition has_pairs (h : gmap loc (gmap string value))
    (P : gmap string value) (v : value) : Prop :=
  ∃ l, v = VDict l ∧ P ⊆ dict_at h l.

(** The documents of an [insert]: the items of a sequence, or the one
    document. *)
Definition documents (doc_or_docs : value) : list value :=
  if isinstance_list_tuple doc_or_docs then items doc_or_docs
  else [doc_or_docs].

(** State [s] with one more line in the log. *)
Definition with_logged (v : value) (s : state) : state :=
  mkState (heap s) (databases s) (delegated s) (aborted s) (logged s ++ [v]).

(** State [s] with store [h]. *)
Definition with_heap (h : gmap loc (gmap string value)) (s : state) : state :=
  mkState h (databases s) (delegated s) (aborted s) (logged s).

(** The store after [target.update(tenant)] on the dict [l], where the
    tenant dict holds [P]. *)
Definition merged (h : gmap loc (gmap string value)) (l : loc)
    (P : gmap string value) : gmap loc (gmap string value) :=
  <[l := dict_update (dict_at h l) P]> h.

(** The run [r] of an operation started in state [s] made one driver call,
    [c], in store [h]; it returned or raised what the driver did, and left
    the store as the driver left it. *)
Definition hands_over
    (driver : call → gmap loc (gmap string value) →
              result value * gmap loc (gmap string value))
    (r : result value * state) (s : state) (c : call)
    (h : gmap loc (gmap string value)) : Prop :=
  new_calls s r.2 = [(c, h)] ∧
  r.1 = (driver c h).1 ∧
  heap r.2 = (driver c h).2.

(** The driver does not write to the default [query] dict of
    [find_and_modify]. *)
Definition keeps_query_default
    (driver : call → gmap loc (gmap string value) →
              result value * gmap loc (gmap string value)) : Prop :=
  ∀ c h, dict_at (driver c h).2 find_and_modify_query_default =
         dict_at h find_and_modify_query_default.

(** The computation [m] does not call [abort]. *)
Definition keeps_aborted {A} (m : M A) : Prop :=
  ∀ s, aborted (m s).2 = aborted s.

(** *** Concrete inputs *)

(** A driver that finds nothing and changes nothing. *)
Definition null_driver (c : call) (h : gmap loc (gmap string value))
  : result value * gmap loc (gmap string value) :=
  (Ok VNone, h).

(** A driver whose [find_one] finds the document at reference 3. *)
Definition finding_driver (c : call) (h : gmap loc (gmap string value))
  : result value * gmap loc (gmap string value) :=
  (Ok (VDict 3%positive), h).

(** pymongo's [Collection.__getattr__]: the sub-collection [name.attr]. *)
Definition dotted_getattr (c : Collection) (nm : string) : native :=
  NativeCollection (name c +:+ "." +:+ nm).

(** pymongo's [Database.__getattr__]: every name is a collection. *)
Definition any_collection (d : dbref) (nm : string) : native :=
  NativeCollection nm.

(** Database 1 scopes to tenant [t1], database 2 to tenant [t2], database 3
    has no predicate, database 4 scopes on another key, to [{org: o2}];
    dict 3 is the document [{name: a}], dict 4 is [{name: b}]. *)
Definition tenants : state :=
  mkState
    {[ find_and_modify_query_default := ∅;
       2%positive := {[ "tenant" := VStr "t1" ]};
       3%positive := {[ "name" := VStr "a" ]};
       4%positive := {[ "name" := VStr "b" ]};
       5%positive := {[ "tenant" := VStr "t2" ]};
       6%positive := {[ "org" := VStr "o2" ]} ]}
    {[ 1%positive := mkDatabase "app" (Some 2%positive);
       2%positive := mkDatabase "app" (Some 5%positive);
       3%positive := mkDatabase "app" None;
       4%positive := mkDatabase "app" (Some 6%positive) ]}
    [] [] [].

Definition users_t1 : Collection := mkCollection 1%positive "users".
Definition users_t2 : Collection := mkCollection 2%positive "users".
Definition users_plain : Collection := mkCollection 3%positive "users".
Definition users_org : Collection := mkCollection 4%positive "users".

(** *** Two readings of the claims that the code does not bear out *)

(** With the predicate set and the spec of [remove] absent, the driver is
    called with the absent spec, so that its own default applies. *)
Definition absent_spec_reaches_driver : Prop :=
  ∀ driver s self p P safe kwargs,
    predicate_set s self p P →
    ∃ h, hands_over driver (remove driver self VNone safe kwargs s) s
           (mkCall self drv_remove [VNone; safe] kwargs) h.

(** After a [find_and_modify] without [query] on a handle with predicate
    [P1], any later [find_and_modify] without [query], on any handle, hands
    the driver a query that has every pair of [P1]. *)
Definition earlier_pairs_remain : Prop :=
  ∀ driver, keeps_query_default driver →
  ∀ s c1 c2 p1 P1 update1 upsert1 sort1 kwargs1 update2 upsert2 sort2 kwargs2,
    predicate_set s c1 p1 P1 →
    let s1 := (find_and_modify driver c1
                 (VDict find_and_modify_query_default)
                 update1 upsert1 sort1 kwargs1 s).2 in
    ∃ c h,
      hands_over driver
        (find_and_modify driver c2 (VDict find_and_modify_query_default)
                         update2 upsert2 sort2 kwargs2 s1) s1 c h ∧
      positional c !! 0 = Some (VDict find_and_modify_query_default) ∧
      P1 ⊆ dict_at h find_and_modify_query_default.

(** *** Vocabulary of the further properties *)

(** Attribute accesses from a collection handle along a path of names, as
    long as each one yields a collection. *)
Fixpoint descend (collection_getattr : Collection → string → native)
    (c : Collection) (path : list string) : option Collection :=
  match path with
  | [] => Some c
  | nm :: path' =>
      match Collection_getattr collection_getattr c nm with
      | ACollection sub => descend collection_getattr sub path'
      | _ => None
      end
  end.

(** The computation [m] leaves the [Database] objects as they are. *)
Definition keeps_databases {A} (m : M A) : Prop :=
  ∀ s, databases (m s).2 = databases s.

(** The driver leaves the store as it finds it. *)
Definition keeps_store
    (driver : call → gmap loc (gmap string value) →
              result value * gmap loc (gmap string value)) : Prop :=
  ∀ c h, (driver c h).2 = h.

(** The tenant field of the handle is the dict [p], and that dict is
    empty. *)
Definition predicate_empty (s : state) (self : Collection) (p : loc) : Prop :=
  tenant_of s self = Some p ∧ dict_at (heap s) p = ∅.

(** The dict [d'] is [d] with the pairs of [P] written over it: the keys of
    [P] have the values of [P], every other key is as in [d]. *)
Definition overwritten (P d d' : gmap string value) : Prop :=
  (∀ k v, P !! k = Some v → d' !! k = Some v) ∧
  (∀ k, P !! k = None → d' !! k = d !! k).

(** The stores [h] and [h'] have the same dicts outside the references
    [ls]. *)
Definition same_outside (ls : list loc)
    (h h' : gmap loc (gmap string value)) : Prop :=
  ∀ l, l ∉ ls → h' !! l = h !! l.

(** A state in which database 1 has an empty dict, dict 2, as its tenant
    field; dict 3 is the document [{name: a}]. *)
Definition empty_scoped : state :=
  mkState
    {[ find_and_modify_query_default := ∅;
       2%positive := ∅;
       3%positive := {[ "name" := VStr "a" ]} ]}
    {[ 1%positive := mkDatabase "app" (Some 2%positive) ]}
    [] [] [].

(** The wrapped client's [__getattr__] of pymongo: every name is a
    database. *)
Definition any_database (nm : string) : native := NativeDatabase nm.

(** ** Properties *)

Create HintDb keeps.
Create HintDb keeps_dbs.

Section Properties.

Variable driver :
  call → gmap loc (gmap string value) →
  result value * gmap loc (gmap string value).

Implicit Types (s : state) (self : Collection) (kwargs : gmap string value).

Lemma dict_truthy_true (P : gmap string value) : P ≠ ∅ → dict_truthy P = true.
Proof.
  intros HP. unfold dict_truthy.
  rewrite bool_decide_eq_false_2; [done|].
  by rewrite map_size_empty_iff.
Qed.

Lemma state_eta s :
  mkState (heap s) (databases s) (delegated s) (aborted s) (logged s) = s.
Proof. by destruct s. Qed.

Lemma new_calls_app s s' (cs : list (call * gmap loc (gmap string value))) :
  delegated s' = delegated s ++ cs → new_calls s s' = cs.
Proof. intros H. unfold new_calls. rewrite H. by rewrite drop_app_length. Qed.

(** *** Calls on a handle without a predicate *)

(** C1.  On a handle whose tenant field is unset, every operation that
    reaches the driver hands it the caller's own arguments in the caller's
    own store, untouched: [save] and [update] after their type checks,
    [remove], [find_one], [find] and [find_and_modify] always ([find_one]
    and [find] write a log line first).  [insert] mutates nothing either; it
    hands nothing to the driver and returns [None]. *)
Theorem unset_predicate_passes_arguments s self :
  tenant_of s self = None →
  (∀ to_save manipulate safe check_keys kwargs,
     save driver self to_save manipulate safe check_keys kwargs s =
     if isinstance_dict to_save
     then super_call driver
            (mkCall self drv_save [to_save; manipulate; safe; check_keys]
                    kwargs) s
     else (Raise TypeError, s)) ∧
  (∀ doc_or_docs manipulate safe check_keys continue_on_error kwargs,
     insert driver self doc_or_docs manipulate safe check_keys
            continue_on_error kwargs s = (Ok VNone, s)) ∧
  (∀ spec document upsert manipulate safe multi check_keys kwargs,
     update driver self spec document upsert manipulate safe multi
            check_keys kwargs s =
     if isinstance_dict spec && isinstance_dict document
     then super_call driver
            (mkCall self drv_update
               [spec; document; upsert; manipulate; safe; multi; check_keys]
               kwargs) s
     else (Raise TypeError, s)) ∧
  (∀ spec_or_id safe kwargs,
     remove driver self spec_or_id safe kwargs s =
     super_call driver (mkCall self drv_remove [spec_or_id; safe] kwargs) s) ∧
  (∀ spec_or_id args kwargs,
     find_one driver self spec_or_id args kwargs s =
     super_call driver (mkCall self drv_find_one (spec_or_id :: args) kwargs)
                (with_logged VNone s)) ∧
  (∀ args kwargs,
     find driver self args kwargs s =
     super_call driver (mkCall self drv_find args kwargs)
                (with_logged (VTuple args) s)) ∧
  (∀ query update upsert sort kwargs,
     find_and_modify driver self query update upsert sort kwargs s =
     super_call driver
       (mkCall self drv_find_and_modify [query; update; upsert; sort] kwargs)
       s).
Proof.
  intros Hnone. unfold tenant_of in Hnone.
  repeat split; intros.
  - unfold save, bind. destruct to_save; simpl; try done; by rewrite Hnone.
  - unfold insert, bind. simpl. by rewrite Hnone.
  - unfold update, bind.
    destruct spec; simpl; try done;
      destruct document; simpl; try done; by rewrite Hnone.
  - unfold remove, bind. simpl. by rewrite Hnone.
  - unfold find_one, bind. simpl. by rewrite Hnone.
  - unfold find, bind. simpl. by rewrite Hnone.
  - unfold find_and_modify, bind. simpl. by rewrite Hnone.
Qed.

(** *** Argument checks *)

(** C5.  [save] with a document that is not a dict, and [update] with a
    spec or an update document that is not a dict, raise [TypeError] in the
    state they were called in: nothing was handed to the driver and
    nothing was written, whatever the tenant field is. *)
Theorem non_mapping_raises_TypeError s self :
  (∀ to_save manipulate safe check_keys kwargs,
     isinstance_dict to_save = false →
     save driver self to_save manipulate safe check_keys kwargs s =
     (Raise TypeError, s)) ∧
  (∀ spec document upsert manipulate safe multi check_keys kwargs,
     isinstance_dict spec = false ∨ isinstance_dict document = false →
     update driver self spec document upsert manipulate safe multi
            check_keys kwargs s = (Raise TypeError, s)).
Proof.
  split.
  - intros * Hnot. unfold save. by rewrite Hnot.
  - intros * [Hnot|Hnot]; unfold update.
    + by rewrite Hnot.
    + rewrite Hnot. by destruct (isinstance_dict spec).
Qed.

(** *** Calls on a handle with a predicate: what each operation does *)

Lemma dict_at_merged h l P l' :
  dict_at (merged h l P) l' =
  if decide (l = l') then P ∪ dict_at h l else dict_at h l'.
Proof.
  unfold merged, dict_at, dict_update.
  rewrite lookup_insert. by case_decide.
Qed.

Lemma merged_has_predicate h l P : P ⊆ dict_at (merged h l P) l.
Proof.
  rewrite dict_at_merged, decide_True by done. apply map_union_subseteq_l.
Qed.

(** The predicate itself is not changed by a merge, even into itself. *)
Lemma merged_predicate h l p :
  dict_at (merged h l (dict_at h p)) p = dict_at h p.
Proof.
  rewrite dict_at_merged. case_decide as Hlp; [|done].
  subst. apply (idemp_L (∪)).
Qed.

Lemma predicate_set_at s self p P :
  predicate_set s self p P → dict_at (heap s) p = P.
Proof. intros (_ & Hp & _). unfold dict_at. by rewrite Hp. Qed.

Lemma fresh_allocated (h : gmap loc (gmap string value)) p d :
  h !! p = Some d → fresh (dom h) ≠ p.
Proof.
  intros Hp Heq. apply (is_fresh (dom h)). rewrite Heq.
  apply elem_of_dom. eauto.
Qed.

(** A new dict [d] merged with the predicate. *)
Lemma merged_new (h : gmap loc (gmap string value)) p P d :
  h !! p = Some P →
  merged (<[fresh (dom h) := d]> h) (fresh (dom h))
         (dict_at (<[fresh (dom h) := d]> h) p) =
  <[fresh (dom h) := dict_update d P]> h.
Proof.
  intros Hp. pose proof (fresh_allocated _ _ _ Hp) as Hne.
  unfold merged, dict_at.
  rewrite lookup_insert_eq, lookup_insert_ne, Hp by done. simpl.
  by rewrite insert_insert_eq.
Qed.

(** Unfolds an operation in a state where the predicate is set. *)
Ltac run Hset :=
  let Hat := fresh "Hat" in
  let Htf := fresh "Htf" in
  let Hp := fresh "Hp" in
  let HP := fresh "HP" in
  pose proof (predicate_set_at _ _ _ _ Hset) as Hat;
  destruct Hset as (Htf & Hp & HP);
  unfold tenant_of in Htf;
  unfold bind, tenant_field, truth, ret; simpl;
  repeat (progress (rewrite ?Htf, ?Hat, ?dict_truthy_true by done; simpl));
  unfold with_heap, with_logged, merged; simpl.

Lemma save_set s self p P l manipulate safe check_keys kwargs :
  predicate_set s self p P →
  save driver self (VDict l) manipulate safe check_keys kwargs s =
  super_call driver
    (mkCall self drv_save [VDict l; manipulate; safe; check_keys] kwargs)
    (with_heap (merged (heap s) l P) s).
Proof. intros Hset. unfold save. by run Hset. Qed.

Lemma insert_set s self p P l manipulate safe check_keys continue_on_error
    kwargs :
  predicate_set s self p P →
  insert driver self (VDict l) manipulate safe check_keys continue_on_error
         kwargs s =
  super_call driver
    (mkCall self drv_save
       [VDict l; manipulate; safe; check_keys; continue_on_error] kwargs)
    (with_heap (merged (heap s) l P) s).
Proof. intros Hset. unfold insert. by run Hset. Qed.

Lemma update_set s self p spec document upsert manipulate safe multi
    check_keys kwargs :
  tenant_of s self = Some p →
  update driver self (VDict spec) (VDict document) upsert manipulate safe
         multi check_keys kwargs s =
  super_call driver
    (mkCall self drv_update
       [VDict spec; VDict document; upsert; manipulate; safe; multi;
        check_keys] kwargs)
    (with_heap (merged (merged (heap s) spec (dict_at (heap s) p)) document
                       (dict_at (heap s) p)) s).
Proof.
  intros Htf. unfold tenant_of in Htf.
  unfold update, bind, tenant_field, ret. simpl.
  repeat (rewrite Htf; simpl).
  pose proof (merged_predicate (heap s) spec p) as Hm.
  unfold merged in Hm. rewrite Hm. done.
Qed.

Lemma remove_set s self p P l safe kwargs :
  predicate_set s self p P →
  remove driver self (VDict l) safe kwargs s =
  super_call driver (mkCall self drv_remove [VDict l; safe] kwargs)
    (with_heap (merged (heap s) l P) s).
Proof. intros Hset. unfold remove. by run Hset. Qed.

Lemma remove_set_id s self p P spec_or_id safe kwargs :
  predicate_set s self p P →
  isinstance_dict spec_or_id = false →
  remove driver self spec_or_id safe kwargs s =
  super_call driver
    (mkCall self drv_remove [VDict (fresh (dom (heap s))); safe] kwargs)
    (with_heap (<[fresh (dom (heap s)) :=
                    dict_update {[ "_id" := spec_or_id ]} P]> (heap s)) s).
Proof.
  intros Hset Hnot. unfold remove. rewrite Hnot.
  pose proof Hset as (_ & Hp' & _). run Hset.
  by rewrite <- (merged_new (heap s) p P) by done.
Qed.

Lemma find_one_set s self p P l args kwargs :
  predicate_set s self p P →
  find_one driver self (VDict l) args kwargs s =
  super_call driver (mkCall self drv_find_one (VDict l :: args) kwargs)
    (with_heap (merged (heap s) l P) (with_logged (VDict p) s)).
Proof. intros Hset. unfold find_one. by run Hset. Qed.

Lemma find_one_set_id s self p P spec_or_id args kwargs :
  predicate_set s self p P →
  isinstance_dict spec_or_id = false →
  find_one driver self spec_or_id args kwargs s =
  super_call driver
    (mkCall self drv_find_one (VDict (fresh (dom (heap s))) :: args) kwargs)
    (with_heap (<[fresh (dom (heap s)) :=
                    dict_update {[ "_id" := spec_or_id ]} P]> (heap s))
               (with_logged (VDict p) s)).
Proof.
  intros Hset Hnot. unfold find_one. rewrite Hnot.
  pose proof Hset as (_ & Hp' & _). run Hset.
  by rewrite <- (merged_new (heap s) p P) by done.
Qed.

Lemma merged_lookup_predicate (h : gmap loc (gmap string value)) l p P :
  h !! p = Some P → merged h l P !! p = Some P.
Proof.
  intros Hp. unfold merged, dict_update, dict_at.
  rewrite lookup_insert. case_decide as Hlp; [|done].
  subst. rewrite Hp. simpl. f_equal. apply (idemp_L (∪)).
Qed.

Lemma merged_at_predicate (h : gmap loc (gmap string value)) l p P :
  h !! p = Some P → dict_at (merged h l P) p = P.
Proof.
  intros Hp. unfold dict_at at 1.
  by rewrite (merged_lookup_predicate _ _ _ _ Hp).
Qed.

Lemma find_and_modify_set s self p P query update upsert sort kwargs :
  predicate_set s self p P →
  find_and_modify driver self (VDict query) (VDict update) upsert sort
                  kwargs s =
  super_call driver
    (mkCall self drv_find_and_modify
       [VDict query; VDict update; upsert; sort] kwargs)
    (with_heap (merged (merged (heap s) query P) update P) s).
Proof.
  intros Hset. unfold find_and_modify, update_method.
  pose proof Hset as (_ & Hp' & _).
  pose proof (merged_at_predicate _ query _ _ Hp') as Hm.
  unfold merged in Hm. run Hset. by rewrite Hm.
Qed.

Lemma find_and_modify_set_new s self p P query update upsert sort kwargs :
  predicate_set s self p P →
  isinstance_dict update = false →
  find_and_modify driver self (VDict query) update upsert sort kwargs s =
  super_call driver
    (mkCall self drv_find_and_modify
       [VDict query; VDict (fresh (dom (merged (heap s) query P)));
        upsert; sort] kwargs)
    (with_heap (<[fresh (dom (merged (heap s) query P)) := P]>
                  (merged (heap s) query P)) s).
Proof.
  intros Hset Hnot. unfold find_and_modify. rewrite Hnot.
  pose proof Hset as (_ & Hp' & _).
  pose proof (merged_lookup_predicate _ query _ _ Hp') as Hm.
  pose proof (merged_new _ _ _ ∅ Hm) as Hnew.
  run Hset. unfold merged, dict_update in Hnew |- *.
  rewrite Hnew. by rewrite (right_id_L ∅ (∪)).
Qed.

(** [find] with the predicate set and no positional argument: the new dict
    that replaces the argument tuple is unpacked into its keys. *)
Lemma find_set_no_args s self p P kwargs :
  predicate_set s self p P →
  find driver self [] kwargs s =
  super_call driver
    (mkCall self drv_find (VStr <$> (map_to_list P).*1) kwargs)
    (with_heap (<[fresh (dom (heap s)) := P]> (heap s))
               (with_logged (VTuple []) s)).
Proof.
  intros Hset. unfold find, star.
  pose proof Hset as (_ & Hp' & _).
  pose proof (merged_new _ _ _ ∅ Hp') as Hnew.
  run Hset. unfold merged, dict_update in Hnew |- *.
  rewrite Hnew, (right_id_L ∅ (∪)).
  unfold dict_at. by rewrite lookup_insert_eq.
Qed.

(** [find] with the predicate set and a positional argument: the argument
    tuple has no [update] method. *)
Lemma find_set_args s self p P arg args kwargs :
  predicate_set s self p P →
  find driver self (arg :: args) kwargs s =
  (Raise (AttributeError "update"), with_logged (VTuple (arg :: args)) s).
Proof. intros Hset. unfold find. by run Hset. Qed.

(** [insert] of a non-empty sequence with the predicate set: the loop
    stops in its first round. *)
Lemma insert_set_sequence s self p P docs doc docs' manipulate safe
    check_keys continue_on_error kwargs :
  predicate_set s self p P →
  isinstance_list_tuple docs = true →
  items docs = doc :: docs' →
  insert driver self docs manipulate safe check_keys continue_on_error
         kwargs s =
  match doc with
  | VDict l =>
      (Raise (NameError "updated_docsa"), with_heap (merged (heap s) l P) s)
  | _ => (Raise (AttributeError "update"), s)
  end.
Proof.
  intros Hset Hseq Hitems. unfold insert. rewrite Hseq, Hitems.
  run Hset.
  destruct doc; unfold bind, update_method, raise; simpl;
    rewrite ?Htf; simpl; rewrite ?Hat, ?state_eta; done.
Qed.

Lemma insert_set_empty s self p P docs manipulate safe check_keys
    continue_on_error kwargs :
  predicate_set s self p P →
  isinstance_list_tuple docs = true →
  items docs = [] →
  insert driver self docs manipulate safe check_keys continue_on_error
         kwargs s =
  super_call driver
    (mkCall self drv_save
       [docs; manipulate; safe; check_keys; continue_on_error] kwargs) s.
Proof.
  intros Hset Hseq Hitems. unfold insert. rewrite Hseq, Hitems.
  by run Hset.
Qed.

(** [insert] of something that is neither a dict nor a sequence. *)
Lemma insert_set_other s self p P doc manipulate safe check_keys
    continue_on_error kwargs :
  predicate_set s self p P →
  isinstance_list_tuple doc = false →
  isinstance_dict doc = false →
  insert driver self doc manipulate safe check_keys continue_on_error
         kwargs s = (Raise (AttributeError "update"), s).
Proof.
  intros Hset Hseq Hdict. unfold insert. rewrite Hseq.
  run Hset. destruct doc; simpl; rewrite ?state_eta; done.
Qed.

Lemma super_call_hands_over c s0 s :
  delegated s0 = delegated s →
  hands_over driver (super_call driver c s0) s c (heap s0).
Proof.
  intros Hd. unfold hands_over, super_call.
  destruct (driver c (heap s0)) as [r h]. simpl. split; [|done].
  apply new_calls_app. by rewrite Hd.
Qed.

Lemma merged_twice_at h l1 l2 P l :
  l = l1 ∨ l = l2 →
  dict_at (merged (merged h l1 P) l2 P) l = P ∪ dict_at h l.
Proof.
  intros Hl. rewrite !dict_at_merged.
  repeat case_decide; subst; try done.
  - by rewrite (assoc_L (∪)), (idemp_L (∪)).
  - by destruct Hl.
Qed.

Lemma has_pairs_union h P l d :
  dict_at h l = P ∪ d → has_pairs h P (VDict l).
Proof.
  intros Hd. exists l. split; [done|].
  rewrite Hd. apply map_union_subseteq_l.
Qed.

(** *** Documents written through a handle with a predicate *)

(** C4.  With the predicate [P] set, [save] of a dict, [insert] of a dict
    and [update] with a dict spec and a dict update document each make
    exactly one driver call, on the caller's dicts, and in the store the
    driver is handed the document has every pair of [P]; for [update] so
    have both the spec and the update document.  Whatever [insert] is
    called with, every document of every call it hands to the driver has
    every pair of [P]. *)
Theorem written_documents_have_predicate s self p P :
  predicate_set s self p P →
  (∀ l manipulate safe check_keys kwargs,
     ∃ h,
       hands_over driver
         (save driver self (VDict l) manipulate safe check_keys kwargs s) s
         (mkCall self drv_save [VDict l; manipulate; safe; check_keys] kwargs)
         h ∧
       has_pairs h P (VDict l)) ∧
  (∀ l manipulate safe check_keys continue_on_error kwargs,
     ∃ h,
       hands_over driver
         (insert driver self (VDict l) manipulate safe check_keys
                 continue_on_error kwargs s) s
         (mkCall self drv_save
            [VDict l; manipulate; safe; check_keys; continue_on_error]
            kwargs) h ∧
       has_pairs h P (VDict l)) ∧
  (∀ doc_or_docs manipulate safe check_keys continue_on_error kwargs c h doc,
     (c, h) ∈ new_calls s
       (insert driver self doc_or_docs manipulate safe check_keys
               continue_on_error kwargs s).2 →
     doc ∈ documents doc_or_docs →
     has_pairs h P doc) ∧
  (∀ spec document upsert manipulate safe multi check_keys kwargs,
     ∃ h,
       hands_over driver
         (update driver self (VDict spec) (VDict document) upsert manipulate
                 safe multi check_keys kwargs s) s
         (mkCall self drv_update
            [VDict spec; VDict document; upsert; manipulate; safe; multi;
             check_keys] kwargs) h ∧
       has_pairs h P (VDict spec) ∧ has_pairs h P (VDict document)).
Proof.
  intros Hset. repeat split.
  - intros. eexists. rewrite (save_set _ _ _ _ _ _ _ _ _ Hset). split.
    + by apply super_call_hands_over.
    + eexists. split; [done|]. apply merged_has_predicate.
  - intros. eexists. rewrite (insert_set _ _ _ _ _ _ _ _ _ _ Hset). split.
    + by apply super_call_hands_over.
    + eexists. split; [done|]. apply merged_has_predicate.
  - intros * Hcall Hdoc. unfold documents in Hdoc.
    destruct (isinstance_list_tuple doc_or_docs) eqn:Hseq.
    + destruct (items doc_or_docs) as [|doc0 docs'] eqn:Hitems.
      { by apply elem_of_nil in Hdoc. }
      rewrite (insert_set_sequence _ _ _ _ _ _ _ _ _ _ _ _ Hset Hseq Hitems)
        in Hcall.
      unfold new_calls in Hcall.
      destruct doc0; simpl in Hcall; rewrite drop_all in Hcall;
        by apply elem_of_nil in Hcall.
    + apply list_elem_of_singleton in Hdoc. subst doc.
      destruct (isinstance_dict doc_or_docs) eqn:Hdict.
      * destruct doc_or_docs; try done.
        rewrite (insert_set _ _ _ _ _ _ _ _ _ _ Hset) in Hcall.
        destruct (super_call_hands_over
                    (mkCall self drv_save
                       [VDict l; manipulate; safe; check_keys;
                        continue_on_error] kwargs)
                    (with_heap (merged (heap s) l P) s) s eq_refl)
          as (Hnew & _).
        rewrite Hnew in Hcall.
        apply list_elem_of_singleton in Hcall. simplify_eq.
        eexists. split; [done|]. apply merged_has_predicate.
      * rewrite (insert_set_other _ _ _ _ _ _ _ _ _ _ Hset Hseq Hdict)
          in Hcall.
        unfold new_calls in Hcall. simpl in Hcall. rewrite drop_all in Hcall.
        by apply elem_of_nil in Hcall.
  - intros. destruct Hset as (Htf & Hp & _).
    assert (dict_at (heap s) p = P) as Hat by (unfold dict_at; by rewrite Hp).
    eexists. rewrite (update_set _ _ _ _ _ _ _ _ _ _ _ Htf), Hat.
    split; [by apply super_call_hands_over|].
    split; eapply has_pairs_union, merged_twice_at; auto.
Qed.

(** *** The merge is done on the caller's own dicts *)


(** *** [find_one_or_404] *)

Lemma bind_keeps_aborted {A B} (m : M A) (k : A → M B) :
  keeps_aborted m → (∀ a, keeps_aborted (k a)) → keeps_aborted (bind m k).
Proof.
  intros Hm Hk s. unfold bind. specialize (Hm s).
  destruct (m s) as [[a|e] s']; simpl in *; [|done].
  by rewrite Hk.
Qed.

Lemma ret_keeps_aborted {A} (a : A) : keeps_aborted (ret a).
Proof. done. Qed.

Lemma tenant_field_keeps_aborted db : keeps_aborted (tenant_field db).
Proof. done. Qed.

Lemma truth_keeps_aborted tf : keeps_aborted (truth tf).
Proof. done. Qed.

Lemma logging_error_keeps_aborted v : keeps_aborted (logging_error v).
Proof. done. Qed.

Lemma new_dict_keeps_aborted d : keeps_aborted (new_dict d).
Proof. done. Qed.

Lemma update_method_keeps_aborted target other :
  keeps_aborted (update_method target other).
Proof. by destruct target, other. Qed.

Lemma super_call_keeps_aborted c : keeps_aborted (super_call driver c).
Proof. intros s. unfold super_call. by destruct (driver c (heap s)). Qed.

#[local] Hint Resolve ret_keeps_aborted tenant_field_keeps_aborted
  truth_keeps_aborted logging_error_keeps_aborted new_dict_keeps_aborted
  update_method_keeps_aborted super_call_keeps_aborted : keeps.

(** [find_one] itself never signals the framework. *)
Lemma find_one_keeps_aborted self spec_or_id args kwargs :
  keeps_aborted (find_one driver self spec_or_id args kwargs).
Proof.
  unfold find_one.
  repeat (first [ apply bind_keeps_aborted; [|intros ?]
                | match goal with
                  | |- keeps_aborted (if ?b then _ else _) => destruct b
                  end
                | solve [auto with keeps] ]).
Qed.

Lemma call_find_one_aborted self args kwargs s :
  aborted (call_find_one driver self args kwargs s).2 = aborted s.
Proof.
  unfold call_find_one.
  destruct args, (kwargs !! "spec_or_id");
    try apply find_one_keeps_aborted; done.
Qed.

(** C7.  [find_one_or_404] runs [find_one] on its arguments.  If that
    returns [None], [abort(404)] is called, once, and its exception is what
    the call raises; nothing else was signalled.  If it returns a document,
    that document is returned as it is and nothing is signalled.  An
    exception of [find_one] passes through. *)
Theorem find_one_or_404_signals_once s self args kwargs r s1 :
  call_find_one driver self args kwargs s = (r, s1) →
  match r with
  | Ok VNone =>
      find_one_or_404 driver self args kwargs s =
      (Raise (HTTPException 404),
       mkState (heap s1) (databases s1) (delegated s1)
               (aborted s ++ [404%Z]) (logged s1))
  | Ok found =>
      find_one_or_404 driver self args kwargs s = (Ok found, s1) ∧
      aborted s1 = aborted s
  | Raise e =>
      find_one_or_404 driver self args kwargs s = (Raise e, s1) ∧
      aborted s1 = aborted s
  end.
Proof.
  intros Hrun.
  pose proof (call_find_one_aborted self args kwargs s) as Hab.
  rewrite Hrun in Hab. simpl in Hab.
  unfold find_one_or_404, bind. rewrite Hrun.
  destruct r as [[]|]; simpl; rewrite ?Hab; done.
Qed.

(** *** Bare identifiers *)

Lemma predicate_set_with_new s self p P d :
  predicate_set s self p P →
  predicate_set (with_heap (<[fresh (dom (heap s)) := d]> (heap s)) s)
                self p P.
Proof.
  intros (Htf & Hp & HP). repeat split; try done. simpl.
  rewrite lookup_insert_ne; [done|]. by eapply fresh_allocated.
Qed.

Lemma merged_insert h l d P :
  merged (<[l := d]> h) l P = <[l := dict_update d P]> h.
Proof.
  unfold merged, dict_at. rewrite lookup_insert_eq. simpl.
  by rewrite insert_insert_eq.
Qed.

(** C6, as amended.  With the predicate [P] set, [remove] and [find_one]
    called with anything that is not a dict, [None] for an absent spec
    included, do what the same call does on a new dict [{_id: identifier}]:
    the driver is handed that one dict, holding the pairs of [P] on top of
    [_id].  So the driver never sees an absent spec here. *)
Theorem bare_identifier_is_id_spec s self p P identifier :
  predicate_set s self p P →
  isinstance_dict identifier = false →
  let l := fresh (dom (heap s)) in
  let s_id := with_heap (<[l := {[ "_id" := identifier ]}]> (heap s)) s in
  (∀ safe kwargs,
     remove driver self identifier safe kwargs s =
     remove driver self (VDict l) safe kwargs s_id ∧
     hands_over driver (remove driver self identifier safe kwargs s) s
       (mkCall self drv_remove [VDict l; safe] kwargs)
       (<[l := P ∪ {[ "_id" := identifier ]}]> (heap s))) ∧
  (∀ args kwargs,
     find_one driver self identifier args kwargs s =
     find_one driver self (VDict l) args kwargs s_id ∧
     hands_over driver (find_one driver self identifier args kwargs s) s
       (mkCall self drv_find_one (VDict l :: args) kwargs)
       (<[l := P ∪ {[ "_id" := identifier ]}]> (heap s))).
Proof.
  intros Hset Hnot l s_id.
  pose proof (predicate_set_with_new _ _ _ _ {[ "_id" := identifier ]} Hset)
    as Hset'.
  split; intros.
  - rewrite (remove_set_id _ _ _ _ _ _ _ Hset Hnot).
    rewrite (remove_set _ _ _ _ _ _ _ Hset').
    unfold s_id, l. simpl. rewrite merged_insert.
    split; [done|]. by apply super_call_hands_over.
  - rewrite (find_one_set_id _ _ _ _ _ _ _ Hset Hnot).
    rewrite (find_one_set _ _ _ _ _ _ _ Hset').
    unfold s_id, l. simpl. rewrite merged_insert.
    split; [done|]. by apply super_call_hands_over.
Qed.

(** *** Queries through a handle with a predicate *)

(** [find_one], [remove] and [find_and_modify] hand the driver a query that
    has every pair of the predicate. *)
Lemma queries_have_predicate s self p P :
  predicate_set s self p P →
  (∀ spec_or_id safe kwargs,
     ∃ spec h,
       hands_over driver (remove driver self spec_or_id safe kwargs s) s
         (mkCall self drv_remove [spec; safe] kwargs) h ∧
       has_pairs h P spec) ∧
  (∀ spec_or_id args kwargs,
     ∃ spec h,
       hands_over driver (find_one driver self spec_or_id args kwargs s) s
         (mkCall self drv_find_one (spec :: args) kwargs) h ∧
       has_pairs h P spec).
Proof.
  intros Hset. split; intros.
  - destruct (isinstance_dict spec_or_id) eqn:Hdict.
    + destruct spec_or_id; try done. do 2 eexists.
      rewrite (remove_set _ _ _ _ _ _ _ Hset).
      split; [by apply super_call_hands_over|].
      eexists. split; [done|]. apply merged_has_predicate.
    + do 2 eexists. rewrite (remove_set_id _ _ _ _ _ _ _ Hset Hdict).
      split; [by apply super_call_hands_over|].
      eexists. split; [done|]. simpl. unfold dict_at, dict_update.
      rewrite lookup_insert_eq. apply map_union_subseteq_l.
  - destruct (isinstance_dict spec_or_id) eqn:Hdict.
    + destruct spec_or_id; try done. do 2 eexists.
      rewrite (find_one_set _ _ _ _ _ _ _ Hset).
      split; [by apply super_call_hands_over|].
      eexists. split; [done|]. apply merged_has_predicate.
    + do 2 eexists. rewrite (find_one_set_id _ _ _ _ _ _ _ Hset Hdict).
      split; [by apply super_call_hands_over|].
      eexists. split; [done|]. simpl. unfold dict_at, dict_update.
      rewrite lookup_insert_eq. apply map_union_subseteq_l.
Qed.

(** *** The default [query] of [find_and_modify] *)

Lemma super_call_heap c s :
  heap (super_call driver c s).2 = (driver c (heap s)).2.
Proof. unfold super_call. by destruct (driver c (heap s)). Qed.

Lemma find_and_modify_unset s self query update upsert sort kwargs :
  tenant_of s self = None →
  find_and_modify driver self query update upsert sort kwargs s =
  super_call driver
    (mkCall self drv_find_and_modify [query; update; upsert; sort] kwargs) s.
Proof.
  intros Hnone. unfold tenant_of in Hnone.
  unfold find_and_modify, bind. simpl. by rewrite Hnone.
Qed.

(** With the predicate set, whatever [update] is, the query dict is handed
    on with the pairs of the predicate on top of its own. *)
Lemma find_and_modify_query_set s self p P query update upsert sort kwargs :
  predicate_set s self p P →
  ∃ update' h,
    find_and_modify driver self (VDict query) update upsert sort kwargs s =
    super_call driver
      (mkCall self drv_find_and_modify
         [VDict query; update'; upsert; sort] kwargs)
      (with_heap h s) ∧
    dict_at h query = P ∪ dict_at (heap s) query.
Proof.
  intros Hset. destruct (isinstance_dict update) eqn:Hdict.
  - destruct update; try done. do 2 eexists.
    rewrite (find_and_modify_set _ _ _ _ _ _ _ _ _ Hset).
    split; [done|]. apply merged_twice_at. auto.
  - do 2 eexists.
    rewrite (find_and_modify_set_new _ _ _ _ _ _ _ _ _ Hset Hdict).
    split; [done|].
    assert (fresh (dom (merged (heap s) query P)) ≠ query) as Hne.
    { eapply fresh_allocated. unfold merged. apply lookup_insert_eq. }
    unfold dict_at at 1. rewrite lookup_insert_ne by done.
    fold (dict_at (merged (heap s) query P) query).
    by rewrite dict_at_merged, decide_True.
Qed.

(** C10, as amended.  The default [query] of [find_and_modify] is one dict
    for all calls, and the merge writes into it.  After a call without
    [query] on a handle with predicate [P1], a later call without [query]
    on a handle without a predicate hands the driver a query with every
    pair of [P1]; on a handle with predicate [P2] it hands on the pairs of
    [P2] and every pair of [P1] whose key [P2] does not bind. *)
Theorem shared_default_query_carries_over s c1 c2 p1 P1
    update1 upsert1 sort1 kwargs1 update2 upsert2 sort2 kwargs2 :
  keeps_query_default driver →
  predicate_set s c1 p1 P1 →
  let s1 := (find_and_modify driver c1 (VDict find_and_modify_query_default)
               update1 upsert1 sort1 kwargs1 s).2 in
  (tenant_of s1 c2 = None →
   ∃ c h,
     hands_over driver
       (find_and_modify driver c2 (VDict find_and_modify_query_default)
                        update2 upsert2 sort2 kwargs2 s1) s1 c h ∧
     positional c !! 0 = Some (VDict find_and_modify_query_default) ∧
     P1 ⊆ dict_at h find_and_modify_query_default) ∧
  (∀ p2 P2,
     predicate_set s1 c2 p2 P2 →
     ∃ c h,
       hands_over driver
         (find_and_modify driver c2 (VDict find_and_modify_query_default)
                          update2 upsert2 sort2 kwargs2 s1) s1 c h ∧
       positional c !! 0 = Some (VDict find_and_modify_query_default) ∧
       P2 ⊆ dict_at h find_and_modify_query_default ∧
       ∀ k v, P1 !! k = Some v → P2 !! k = None →
              dict_at h find_and_modify_query_default !! k = Some v).
Proof.
  intros Hkeeps Hset1 s1.
  assert (P1 ⊆ dict_at (heap s1) find_and_modify_query_default) as Hleft.
  { destruct (find_and_modify_query_set _ _ _ _ find_and_modify_query_default
                update1 upsert1 sort1 kwargs1 Hset1)
      as (u & h & Hrun & Hq).
    unfold s1. rewrite Hrun, super_call_heap, Hkeeps. simpl.
    rewrite Hq. apply map_union_subseteq_l. }
  split.
  - intros Hnone. do 2 eexists.
    rewrite (find_and_modify_unset _ _ _ _ _ _ _ Hnone).
    split; [by apply super_call_hands_over|]. done.
  - intros p2 P2 Hset2.
    destruct (find_and_modify_query_set _ _ _ _ find_and_modify_query_default
                update2 upsert2 sort2 kwargs2 Hset2)
      as (u & h & Hrun & Hq).
    do 2 eexists. rewrite Hrun.
    split; [by apply super_call_hands_over|].
    split; [done|]. simpl. rewrite Hq.
    split; [apply map_union_subseteq_l|].
    intros k v Hk1 Hk2. rewrite lookup_union_r by done.
    by eapply lookup_weaken.
Qed.

(** *** [insert] and [find] with a predicate, on the example state *)

Lemma tenants_t1_set :
  predicate_set tenants users_t1 2%positive {[ "tenant" := VStr "t1" ]}.
Proof. repeat split. apply map_non_empty_singleton. Qed.

(** C2.  In the state [tenants], [insert] of the list of the documents 3
    and 4 through the handle scoped to [t1] raises [NameError] after the
    first document got the predicate: document 4 is left as it was and the
    driver is not called.  [insert] of document 3 through the handle
    without a predicate returns [None] and does not call the driver
    either. *)
Theorem insert_sequence_stops_and_unset_skips_driver :
  (let r := insert driver users_t1
              (VList [VDict 3%positive; VDict 4%positive])
              (VBool true) VNone (VBool true) (VBool false) ∅ tenants in
   r.1 = Raise (NameError "updated_docsa") ∧
   dict_at (heap r.2) 3%positive =
     {[ "name" := VStr "a"; "tenant" := VStr "t1" ]} ∧
   dict_at (heap r.2) 4%positive = {[ "name" := VStr "b" ]} ∧
   delegated r.2 = []) ∧
  insert driver users_plain (VDict 3%positive)
         (VBool true) VNone (VBool true) (VBool false) ∅ tenants =
  (Ok VNone, tenants).
Proof.
  split; [|reflexivity].
  by rewrite (insert_set_sequence tenants users_t1 2%positive _
                (VList [VDict 3%positive; VDict 4%positive])
                (VDict 3%positive) [VDict 4%positive] _ _ _ _ _
                tenants_t1_set eq_refl eq_refl).
Qed.

(** C3.  In the state [tenants], through the handle scoped to [t1]:
    [find] with the query [{name: a}] raises [AttributeError] and does not
    call the driver; [find] without arguments calls the driver with the
    string [tenant], the key of the predicate, as its one positional
    argument. *)
Theorem find_with_predicate_loses_query :
  find driver users_t1 [VDict 3%positive] ∅ tenants =
  (Raise (AttributeError "update"),
   with_logged (VTuple [VDict 3%positive]) tenants) ∧
  find driver users_t1 [] ∅ tenants =
  super_call driver (mkCall users_t1 drv_find [VStr "tenant"] ∅)
    (with_heap (<[7%positive := {[ "tenant" := VStr "t1" ]}]> (heap tenants))
               (with_logged (VTuple []) tenants)).
Proof.
  split.
  - apply (find_set_args _ _ _ _ _ _ _ tenants_t1_set).
  - by rewrite (find_set_no_args _ _ _ _ _ tenants_t1_set).
Qed.

End Properties.

(** *** Sub-collections *)

Section Attributes.

Variable database_getattr : dbref → string → native.
Variable collection_getattr : Collection → string → native.

Lemma Collection_getattr_collection self nm attr_name :
  collection_getattr self nm = NativeCollection attr_name →
  Collection_getattr collection_getattr self nm =
  ACollection (mkCollection (database self) attr_name).
Proof. intros Hattr. unfold Collection_getattr. by rewrite Hattr. Qed.

Lemma Database_getattr_collection db nm attr_name :
  database_getattr db nm = NativeCollection attr_name →
  Database_getattr database_getattr db nm = ACollection (mkCollection db nm).
Proof. intros Hattr. unfold Database_getattr. by rewrite Hattr. Qed.

(** C8.  Attribute access on a collection handle, for a name the driver
    resolves to a collection, yields a collection handle: the one on the
    parent's [Database] object under the name the driver gave the
    sub-collection.  It reads the same tenant field, in every state, as
    its parent and as every handle that attribute access on that database
    yields, so a predicate is set for the one exactly when it is set for
    the other; and it is the very handle the database yields for the
    sub-collection's name, so every operation on the one is the operation
    on the other. *)
Theorem sub_collection_shares_database self nm attr_name :
  collection_getattr self nm = NativeCollection attr_name →
  ∃ sub,
    Collection_getattr collection_getattr self nm = ACollection sub ∧
    name sub = attr_name ∧
    database sub = database self ∧
    tenant_field (database sub) = tenant_field (database self) ∧
    (∀ s, tenant_of s sub = tenant_of s self) ∧
    (∀ nm' attr_name',
       database_getattr (database self) nm' = NativeCollection attr_name' →
       ∃ direct,
         Database_getattr database_getattr (database self) nm'
           = ACollection direct ∧
         name direct = nm' ∧
         database direct = database sub ∧
         tenant_field (database direct) = tenant_field (database sub) ∧
         (∀ s, tenant_of s direct = tenant_of s sub) ∧
         (∀ s p P, predicate_set s direct p P ↔ predicate_set s sub p P) ∧
         (nm' = name sub →
          direct = sub ∧
          ∀ (operation : Collection → M value),
            operation direct = operation sub)).
Proof.
  intros Hsub. exists (mkCollection (database self) attr_name).
  split; [by apply Collection_getattr_collection|].
  do 4 (split; [done|]).
  intros nm' attr_name' Hdirect. exists (mkCollection (database self) nm').
  split; [by eapply Database_getattr_collection|].
  do 5 (split; [done|]).
  simpl. by intros ->.
Qed.

End Attributes.

(** ** The properties on the example state *)

(** Each statement below instantiates one of the theorems above on the
    state [tenants] and the drivers [null_driver] and [finding_driver]. *)

Lemma null_driver_keeps_query_default : keeps_query_default null_driver.
Proof. intros c h. reflexivity. Defined.

Lemma unset_predicate_passes_arguments_witness :
  tenant_of tenants users_plain = None ∧
  save null_driver users_plain (VDict 3%positive) (VBool true) VNone
       (VBool true) ∅ tenants =
  super_call null_driver
    (mkCall users_plain drv_save
       [VDict 3%positive; VBool true; VNone; VBool true] ∅) tenants.
Proof.
  split; [reflexivity|].
  apply (proj1 (unset_predicate_passes_arguments
                  null_driver tenants users_plain eq_refl)).
Defined.

Lemma non_mapping_raises_TypeError_witness :
  isinstance_dict (VInt 5) = false ∧
  save null_driver users_t1 (VInt 5) (VBool true) VNone (VBool true) ∅
       tenants = (Raise TypeError, tenants).
Proof.
  split; [reflexivity|].
  apply (proj1 (non_mapping_raises_TypeError null_driver tenants users_t1)).
  reflexivity.
Defined.

Lemma written_documents_have_predicate_witness :
  predicate_set tenants users_t1 2%positive {[ "tenant" := VStr "t1" ]} ∧
  ∃ h,
    hands_over null_driver
      (save null_driver users_t1 (VDict 3%positive) (VBool true) VNone
            (VBool true) ∅ tenants) tenants
      (mkCall users_t1 drv_save
         [VDict 3%positive; VBool true; VNone; VBool true] ∅) h ∧
    has_pairs h {[ "tenant" := VStr "t1" ]} (VDict 3%positive).
Proof.
  assert (predicate_set tenants users_t1 2%positive
            {[ "tenant" := VStr "t1" ]}) as Hset.
  { repeat split. apply map_non_empty_singleton. }
  split; [exact Hset|].
  apply (proj1 (written_documents_have_predicate
                  null_driver tenants users_t1 _ _ Hset)).
Defined.


Lemma find_one_or_404_signals_once_witness :
  (call_find_one null_driver users_t1 [VInt 5] ∅ tenants =
   (Ok VNone, (call_find_one null_driver users_t1 [VInt 5] ∅ tenants).2) ∧
   (find_one_or_404 null_driver users_t1 [VInt 5] ∅ tenants).1 =
   Raise (HTTPException 404) ∧
   aborted (find_one_or_404 null_driver users_t1 [VInt 5] ∅ tenants).2 =
   [404%Z]) ∧
  (call_find_one finding_driver users_t1 [VInt 5] ∅ tenants =
   (Ok (VDict 3%positive),
    (call_find_one finding_driver users_t1 [VInt 5] ∅ tenants).2) ∧
   (find_one_or_404 finding_driver users_t1 [VInt 5] ∅ tenants).1 =
   Ok (VDict 3%positive) ∧
   aborted (find_one_or_404 finding_driver users_t1 [VInt 5] ∅ tenants).2 =
   []).
Proof.
  assert (call_find_one null_driver users_t1 [VInt 5] ∅ tenants =
          (Ok VNone,
           (call_find_one null_driver users_t1 [VInt 5] ∅ tenants).2))
    as Hnone by reflexivity.
  assert (call_find_one finding_driver users_t1 [VInt 5] ∅ tenants =
          (Ok (VDict 3%positive),
           (call_find_one finding_driver users_t1 [VInt 5] ∅ tenants).2))
    as Hfound by reflexivity.
  split.
  - split; [exact Hnone|].
    rewrite (find_one_or_404_signals_once null_driver tenants users_t1
               [VInt 5] ∅ _ _ Hnone).
    split; reflexivity.
  - split; [exact Hfound|].
    destruct (find_one_or_404_signals_once finding_driver tenants users_t1
                [VInt 5] ∅ _ _ Hfound) as [Hrun Hab].
    rewrite Hrun. split; [reflexivity | exact Hab].
Defined.

Lemma sub_collection_shares_database_witness :
  dotted_getattr users_t1 "archive" = NativeCollection "users.archive" ∧
  ∃ sub,
    Collection_getattr dotted_getattr users_t1 "archive" = ACollection sub ∧
    name sub = "users.archive" ∧
    database sub = database users_t1 ∧
    tenant_field (database sub) = tenant_field (database users_t1).
Proof.
  split; [reflexivity|].
  destruct (sub_collection_shares_database any_collection dotted_getattr
              users_t1 "archive" "users.archive" eq_refl)
    as (sub & Hget & Hname & Hdb & Htf & _).
  exists sub. repeat split; assumption.
Defined.

Lemma bare_identifier_is_id_spec_witness :
  predicate_set tenants users_t1 2%positive {[ "tenant" := VStr "t1" ]} ∧
  isinstance_dict (VInt 5) = false ∧
  remove null_driver users_t1 (VInt 5) VNone ∅ tenants =
  remove null_driver users_t1 (VDict 7%positive) VNone ∅
    (with_heap (<[7%positive := {[ "_id" := VInt 5 ]}]> (heap tenants))
               tenants) ∧
  hands_over null_driver
    (remove null_driver users_t1 (VInt 5) VNone ∅ tenants) tenants
    (mkCall users_t1 drv_remove [VDict 7%positive; VNone] ∅)
    (<[7%positive := {[ "tenant" := VStr "t1" ]} ∪ {[ "_id" := VInt 5 ]}]>
       (heap tenants)).
Proof.
  assert (predicate_set tenants users_t1 2%positive
            {[ "tenant" := VStr "t1" ]}) as Hset.
  { repeat split. apply map_non_empty_singleton. }
  split; [exact Hset|]. split; [reflexivity|].
  apply (proj1 (bare_identifier_is_id_spec null_driver tenants users_t1 _ _
                  (VInt 5) Hset eq_refl) VNone ∅).
Defined.

(** C6, the counterexample.  In the state [tenants], [remove] without a
    spec through the handle scoped to [t1] calls the driver with a new
    dict [{_id: None, tenant: t1}], not with the absent spec. *)
Lemma absent_spec_is_wrapped :
  (∀ c h,
     (c, h) ∈ new_calls tenants
                (remove null_driver users_t1 VNone VNone ∅ tenants).2 →
     positional c = [VDict 7%positive; VNone] ∧
     h !! 7%positive = Some {[ "_id" := VNone; "tenant" := VStr "t1" ]}) ∧
  ¬ absent_spec_reaches_driver.
Proof.
  assert (new_calls tenants
            (remove null_driver users_t1 VNone VNone ∅ tenants).2 =
          [(mkCall users_t1 drv_remove [VDict 7%positive; VNone] ∅,
            <[7%positive := {[ "_id" := VNone; "tenant" := VStr "t1" ]}]>
              (heap tenants))]) as Hcalls by (vm_compute; reflexivity).
  split.
  - intros c h Hin. rewrite Hcalls in Hin.
    apply list_elem_of_singleton in Hin. injection Hin as -> ->.
    split; reflexivity.
  - intros Hclaim.
    destruct (Hclaim null_driver tenants users_t1 2%positive
                {[ "tenant" := VStr "t1" ]} VNone ∅) as (h & Hnew & _).
    { repeat split. apply map_non_empty_singleton. }
    rewrite Hcalls in Hnew. discriminate Hnew.
Qed.

Lemma shared_default_query_carries_over_witness :
  keeps_query_default null_driver ∧
  predicate_set tenants users_t1 2%positive {[ "tenant" := VStr "t1" ]} ∧
  let s1 := (find_and_modify null_driver users_t1
               (VDict find_and_modify_query_default)
               VNone (VBool false) VNone ∅ tenants).2 in
  tenant_of s1 users_plain = None ∧
  (∃ c h,
     hands_over null_driver
       (find_and_modify null_driver users_plain
          (VDict find_and_modify_query_default)
          VNone (VBool false) VNone ∅ s1) s1 c h ∧
     positional c !! 0 = Some (VDict find_and_modify_query_default) ∧
     {[ "tenant" := VStr "t1" ]} ⊆ dict_at h find_and_modify_query_default) ∧
  predicate_set s1 users_org 6%positive {[ "org" := VStr "o2" ]} ∧
  (∃ c h,
     hands_over null_driver
       (find_and_modify null_driver users_org
          (VDict find_and_modify_query_default)
          VNone (VBool false) VNone ∅ s1) s1 c h ∧
     positional c !! 0 = Some (VDict find_and_modify_query_default) ∧
     {[ "org" := VStr "o2" ]} ⊆ dict_at h find_and_modify_query_default ∧
     ∀ k v, ({[ "tenant" := VStr "t1" ]} : gmap string value) !! k = Some v →
            ({[ "org" := VStr "o2" ]} : gmap string value) !! k = None →
            dict_at h find_and_modify_query_default !! k = Some v).
Proof.
  assert (predicate_set tenants users_t1 2%positive
            {[ "tenant" := VStr "t1" ]}) as Hset.
  { repeat split. apply map_non_empty_singleton. }
  split; [exact null_driver_keeps_query_default|].
  split; [exact Hset|]. intros s1.
  assert (predicate_set s1 users_org 6%positive {[ "org" := VStr "o2" ]})
    as Hset2.
  { repeat split. apply map_non_empty_singleton. }
  split; [reflexivity|].
  split.
  - apply (proj1 (shared_default_query_carries_over null_driver tenants
                    users_t1 users_plain _ _ VNone (VBool false) VNone ∅
                    VNone (VBool false) VNone ∅
                    null_driver_keeps_query_default Hset)).
    reflexivity.
  - split; [exact Hset2|].
    apply (proj2 (shared_default_query_carries_over null_driver tenants
                    users_t1 users_org _ _ VNone (VBool false) VNone ∅
                    VNone (VBool false) VNone ∅
                    null_driver_keeps_query_default Hset) _ _ Hset2).
Defined.

(** C10, the counterexample.  In the state [tenants], after a
    [find_and_modify] without [query] through the handle scoped to [t1],
    the same call through the handle scoped to [t2] hands the driver the
    query [{tenant: t2}]: the pair of the earlier call is gone. *)
Lemma later_predicate_rebinds_key :
  (let s1 := (find_and_modify null_driver users_t1
                (VDict find_and_modify_query_default)
                VNone (VBool false) VNone ∅ tenants).2 in
   (λ ch : call * gmap loc (gmap string value),
      (positional ch.1 !! 0, dict_at ch.2 find_and_modify_query_default))
   <$> new_calls s1
         (find_and_modify null_driver users_t2
            (VDict find_and_modify_query_default)
            VNone (VBool false) VNone ∅ s1).2 =
   [(Some (VDict find_and_modify_query_default),
     {[ "tenant" := VStr "t2" ]})]) ∧
  ¬ earlier_pairs_remain.
Proof.
  assert (let s1 := (find_and_modify null_driver users_t1
                       (VDict find_and_modify_query_default)
                       VNone (VBool false) VNone ∅ tenants).2 in
          (λ ch : call * gmap loc (gmap string value),
             (positional ch.1 !! 0,
              dict_at ch.2 find_and_modify_query_default))
          <$> new_calls s1
                (find_and_modify null_driver users_t2
                   (VDict find_and_modify_query_default)
                   VNone (VBool false) VNone ∅ s1).2 =
          [(Some (VDict find_and_modify_query_default),
            {[ "tenant" := VStr "t2" ]})]) as Hcalls
    by (vm_compute; reflexivity).
  split; [exact Hcalls|].
  intros Hclaim.
  destruct (Hclaim null_driver null_driver_keeps_query_default tenants
              users_t1 users_t2 2%positive {[ "tenant" := VStr "t1" ]}
              VNone (VBool false) VNone ∅ VNone (VBool false) VNone ∅)
    as (c & h & (Hnew & _) & _ & Hsub).
  { repeat split. apply map_non_empty_singleton. }
  simpl in Hcalls. rewrite Hnew in Hcalls. simpl in Hcalls.
  injection Hcalls as _ Hq. rewrite Hq in Hsub.
  apply map_singleton_subseteq_l in Hsub.
  rewrite lookup_singleton_eq in Hsub. discriminate Hsub.
Qed.

(** ** Further properties of the wrappers *)

(** *** The [tenant_field] property and attribute access *)

(** X1.  The setter and the getter of [tenant_field] on a [Database]
    object: what was set is what is read, on that object only; the dicts
    and the record of driver calls are not touched. *)
Theorem tenant_field_set_then_get s db v :
  is_Some (databases s !! db) →
  let s' := (set_tenant_field db v s).2 in
  tenant_field db s' = (Ok v, s') ∧
  (∀ db', db' ≠ db → (tenant_field db' s').1 = (tenant_field db' s).1) ∧
  heap s' = heap s ∧ delegated s' = delegated s.
Proof.
  intros [d Hd] s'. unfold s', tenant_field, set_tenant_field. simpl.
  split; [|split; [|done]].
  - rewrite lookup_alter_eq, Hd. done.
  - intros db' Hne. by rewrite lookup_alter_ne.
Qed.

Lemma tenant_field_set_then_get_witness :
  is_Some (databases tenants !! 3%positive) ∧
  tenant_field 3%positive
    (set_tenant_field 3%positive (Some 5%positive) tenants).2 =
  (Ok (Some 5%positive),
   (set_tenant_field 3%positive (Some 5%positive) tenants).2).
Proof.
  assert (is_Some (databases tenants !! 3%positive)) as Hdb
    by (eexists; reflexivity).
  split; [exact Hdb|].
  apply (proj1 (tenant_field_set_then_get tenants 3%positive
                  (Some 5%positive) Hdb)).
Defined.

Section Clients.

Variable client_getattr : string → native.

Lemma MongoClient_getattr_database s nm nm0 :
  client_getattr nm = NativeDatabase nm0 →
  MongoClient_getattr client_getattr nm s =
  (Ok (ADatabase (fresh (dom (databases s)))),
   mkState (heap s)
           (<[fresh (dom (databases s)) := mkDatabase nm None]> (databases s))
           (delegated s) (aborted s) (logged s)).
Proof. intros Hdb. unfold MongoClient_getattr. by rewrite Hdb. Qed.

(** X2.  Attribute access on the client, for a name the driver resolves to
    a database, makes a [Database] object that did not exist before, named
    as accessed and with no tenant field; the objects that existed keep
    their tenant fields.  Any other attribute is passed on as the driver
    gave it, in the same state. *)
Theorem client_access_makes_unscoped_database s nm :
  match client_getattr nm with
  | NativeDatabase _ =>
      ∃ d s',
        MongoClient_getattr client_getattr nm s = (Ok (ADatabase d), s') ∧
        databases s !! d = None ∧
        databases s' !! d = Some (mkDatabase nm None) ∧
        (∀ d', d' ≠ d → databases s' !! d' = databases s !! d') ∧
        heap s' = heap s ∧ delegated s' = delegated s
  | attr =>
      MongoClient_getattr client_getattr nm s = (Ok (ANative attr), s)
  end.
Proof.
  destruct (client_getattr nm) as [nm0| |] eqn:Hattr;
    [|by unfold MongoClient_getattr; rewrite Hattr..].
  do 2 eexists. split; [by eapply MongoClient_getattr_database|]. simpl.
  split; [apply not_elem_of_dom, is_fresh|].
  split; [by rewrite lookup_insert_eq|].
  split; [|done]. intros d' Hne. by rewrite lookup_insert_ne.
Qed.

(** X3.  A tenant field set on the database got by one attribute access on
    the client is not seen through the next access of the same name: that
    one makes another object, whose tenant field is unset, so every
    collection handle on it is unscoped. *)
Theorem predicate_lost_on_next_client_access s nm nm0 p :
  client_getattr nm = NativeDatabase nm0 →
  ∃ d1 s1 d2 s3,
    MongoClient_getattr client_getattr nm s = (Ok (ADatabase d1), s1) ∧
    MongoClient_getattr client_getattr nm
      (set_tenant_field d1 (Some p) s1).2 = (Ok (ADatabase d2), s3) ∧
    d2 ≠ d1 ∧
    tenant_field d1 s3 = (Ok (Some p), s3) ∧
    tenant_field d2 s3 = (Ok None, s3) ∧
    ∀ nm', tenant_of s3 (mkCollection d2 nm') = None.
Proof.
  intros Hdb. do 4 eexists.
  split; [by eapply MongoClient_getattr_database|].
  split; [by eapply MongoClient_getattr_database|].
  unfold tenant_field, tenant_of. simpl.
  set (d1 := fresh (dom (databases s))).
  set (dbs2 := alter (λ d, mkDatabase (db_name d) (Some p)) d1
                 (<[d1 := mkDatabase nm None]> (databases s))).
  assert (dbs2 !! d1 = Some (mkDatabase nm (Some p))) as Hd1.
  { unfold dbs2. by rewrite lookup_alter_eq, lookup_insert_eq. }
  assert (fresh (dom dbs2) ≠ d1) as Hne.
  { intros Heq. apply (is_fresh (dom dbs2)). rewrite Heq.
    apply elem_of_dom. eauto. }
  split; [done|].
  rewrite lookup_insert_ne, Hd1 by done. split; [done|].
  rewrite lookup_insert_eq. done.
Qed.

End Clients.

Lemma predicate_lost_on_next_client_access_witness :
  any_database "app" = NativeDatabase "app" ∧
  ∃ d1 s1 d2 s3,
    MongoClient_getattr any_database "app" tenants = (Ok (ADatabase d1), s1) ∧
    MongoClient_getattr any_database "app"
      (set_tenant_field d1 (Some 2%positive) s1).2 = (Ok (ADatabase d2), s3) ∧
    d2 ≠ d1 ∧
    tenant_field d1 s3 = (Ok (Some 2%positive), s3) ∧
    tenant_field d2 s3 = (Ok None, s3) ∧
    ∀ nm', tenant_of s3 (mkCollection d2 nm') = None.
Proof.
  split; [reflexivity|].
  apply (predicate_lost_on_next_client_access any_database tenants
           "app" "app" 2%positive eq_refl).
Defined.

Section Paths.

Variable database_getattr : dbref → string → native.
Variable collection_getattr : Collection → string → native.

(** X4.  Whatever the depth, a collection handle reached from a handle by
    attribute accesses is on the same [Database] object and reads the same
    tenant field in every state; so is every handle reached from one that
    the database gave. *)
Theorem descend_stays_on_database c path c' :
  descend collection_getattr c path = Some c' →
  database c' = database c ∧
  (∀ s, tenant_of s c' = tenant_of s c) ∧
  (∀ db nm, Database_getattr database_getattr db nm = ACollection c →
            database c' = db).
Proof.
  revert c. induction path as [|nm path IH]; intros c Hwalk; simpl in Hwalk.
  - injection Hwalk as <-. split; [done|]. split; [done|].
    intros db nm Hget. unfold Database_getattr in Hget.
    destruct (database_getattr db nm); try done. by injection Hget as <-.
  - unfold Collection_getattr in Hwalk.
    destruct (collection_getattr c nm) as [| attr_name |]; try done.
    destruct (IH _ Hwalk) as (Hdb & Htf & _). simpl in Hdb.
    split; [done|]. split.
    + intros s. rewrite Htf. done.
    + intros db nm' Hget. rewrite Hdb. unfold Database_getattr in Hget.
      destruct (database_getattr db nm'); try done. by injection Hget as <-.
Qed.

End Paths.

Lemma descend_stays_on_database_witness :
  descend dotted_getattr users_t1 ["archive"; "y2011"] =
  Some (mkCollection 1%positive "users.archive.y2011") ∧
  database (mkCollection 1%positive "users.archive.y2011") =
  database users_t1.
Proof.
  split; [reflexivity|].
  apply (proj1 (descend_stays_on_database any_collection dotted_getattr
                  users_t1 ["archive"; "y2011"] _ eq_refl)).
Defined.

(** *** Operations on a handle with a predicate: further properties *)

Section Operations.

Variable driver :
  call → gmap loc (gmap string value) →
  result value * gmap loc (gmap string value).

Implicit Types (s : state) (self : Collection) (kwargs : gmap string value).

Lemma predicate_set_after_setter s self p P :
  is_Some (databases s !! database self) →
  heap s !! p = Some P → P ≠ ∅ →
  predicate_set (set_tenant_field (database self) (Some p) s).2 self p P.
Proof.
  intros [d Hd] Hp HP. split; [|done].
  unfold tenant_of, set_tenant_field. simpl.
  by rewrite lookup_alter_eq, Hd.
Qed.

Lemma save_unset s self l manipulate safe check_keys kwargs :
  tenant_of s self = None →
  save driver self (VDict l) manipulate safe check_keys kwargs s =
  super_call driver
    (mkCall self drv_save [VDict l; manipulate; safe; check_keys] kwargs) s.
Proof.
  intros Hnone. unfold tenant_of in Hnone.
  unfold save, bind. simpl. by rewrite Hnone.
Qed.

(** X5.  A collection handle reads the tenant field when an operation
    runs, not when the handle is made: after the field of its database is
    set to a non-empty dict, [save] through a handle that existed before
    hands the driver a document with every pair of it; after the field is
    set back to [None], [save] hands the document on as it is. *)
Theorem predicate_set_later_applies s self p P l manipulate safe check_keys
    kwargs :
  is_Some (databases s !! database self) →
  heap s !! p = Some P → P ≠ ∅ →
  let s1 := (set_tenant_field (database self) (Some p) s).2 in
  let s2 := (set_tenant_field (database self) None s1).2 in
  (∃ h,
     hands_over driver
       (save driver self (VDict l) manipulate safe check_keys kwargs s1) s1
       (mkCall self drv_save [VDict l; manipulate; safe; check_keys] kwargs)
       h ∧
     has_pairs h P (VDict l)) ∧
  save driver self (VDict l) manipulate safe check_keys kwargs s2 =
  super_call driver
    (mkCall self drv_save [VDict l; manipulate; safe; check_keys] kwargs) s2.
Proof.
  intros Hdb Hp HP s1 s2.
  pose proof (predicate_set_after_setter _ _ _ _ Hdb Hp HP) as Hset.
  split.
  - eexists. unfold s1. rewrite (save_set _ _ _ _ _ _ _ _ _ _ Hset).
    split; [by apply super_call_hands_over|].
    eexists. split; [done|]. apply merged_has_predicate.
  - apply save_unset. destruct Hdb as [d Hd].
    unfold s2, s1, tenant_of, set_tenant_field. simpl.
    by rewrite !lookup_alter_eq, Hd.
Qed.

(** X6.  A tenant field that is an empty dict scopes nothing.  [save],
    [remove], [find_one], [find] and [find_and_modify] hand the caller's
    arguments to the driver in the caller's store, [insert] returns [None]
    without a driver call, as with no tenant field; [update] merges the
    empty dict, which leaves every dict with the contents it had. *)
Theorem empty_predicate_scopes_nothing s self p :
  predicate_empty s self p →
  (∀ l manipulate safe check_keys kwargs,
     save driver self (VDict l) manipulate safe check_keys kwargs s =
     super_call driver
       (mkCall self drv_save [VDict l; manipulate; safe; check_keys] kwargs)
       s) ∧
  (∀ doc_or_docs manipulate safe check_keys continue_on_error kwargs,
     insert driver self doc_or_docs manipulate safe check_keys
            continue_on_error kwargs s = (Ok VNone, s)) ∧
  (∀ spec document upsert manipulate safe multi check_keys kwargs,
     ∃ h,
       update driver self (VDict spec) (VDict document) upsert manipulate
              safe multi check_keys kwargs s =
       super_call driver
         (mkCall self drv_update
            [VDict spec; VDict document; upsert; manipulate; safe; multi;
             check_keys] kwargs) (with_heap h s) ∧
       ∀ l, dict_at h l = dict_at (heap s) l) ∧
  (∀ spec_or_id safe kwargs,
     remove driver self spec_or_id safe kwargs s =
     super_call driver (mkCall self drv_remove [spec_or_id; safe] kwargs) s) ∧
  (∀ spec_or_id args kwargs,
     find_one driver self spec_or_id args kwargs s =
     super_call driver (mkCall self drv_find_one (spec_or_id :: args) kwargs)
                (with_logged (VDict p) s)) ∧
  (∀ args kwargs,
     find driver self args kwargs s =
     super_call driver (mkCall self drv_find args kwargs)
                (with_logged (VTuple args) s)) ∧
  (∀ query update upsert sort kwargs,
     find_and_modify driver self query update upsert sort kwargs s =
     super_call driver
       (mkCall self drv_find_and_modify [query; update; upsert; sort] kwargs)
       s).
Proof.
  intros [Htf Hempty]. unfold tenant_of in Htf.
  assert (dict_truthy ∅ = false) as Hfalse by reflexivity.
  repeat split; intros.
  - unfold save, bind, truth. simpl. by rewrite Htf, Hempty, Hfalse.
  - unfold insert, bind, truth. simpl. by rewrite Htf, Hempty, Hfalse.
  - eexists. rewrite (update_set _ _ _ _ _ _ _ _ _ _ _ _ Htf), Hempty.
    split; [done|]. intros l0. rewrite !dict_at_merged.
    repeat case_decide; subst; by rewrite ?(left_id_L ∅ (∪)).
  - unfold remove, bind, truth. simpl. by rewrite Htf, Hempty, Hfalse.
  - unfold find_one, bind, truth. simpl. by rewrite Htf, Hempty, Hfalse.
  - unfold find, bind, truth. simpl. by rewrite Htf, Hempty, Hfalse.
  - unfold find_and_modify, bind, truth. simpl.
    by rewrite Htf, Hempty, Hfalse.
Qed.

Lemma overwritten_union (P d : gmap string value) : overwritten P d (P ∪ d).
Proof.
  split.
  - intros k v Hk. by apply lookup_union_Some_l.
  - intros k Hk. by apply lookup_union_r.
Qed.

Lemma merged_overwritten h l P :
  overwritten P (dict_at h l) (dict_at (merged h l P) l).
Proof. rewrite dict_at_merged, decide_True by done. apply overwritten_union. Qed.

(** X7.  The predicate decides its keys.  With the predicate [P] set,
    whatever value the caller's document or query has under a key of [P]
    is replaced by the value of [P] before the driver sees it, and every
    other key is handed on as the caller gave it: for the document of
    [save], and for the query dict of [remove] and of [find_one]. *)
Theorem predicate_overrides_caller_keys s self p P l :
  predicate_set s self p P →
  (∀ manipulate safe check_keys kwargs,
     ∃ h,
       hands_over driver
         (save driver self (VDict l) manipulate safe check_keys kwargs s) s
         (mkCall self drv_save [VDict l; manipulate; safe; check_keys] kwargs)
         h ∧
       overwritten P (dict_at (heap s) l) (dict_at h l)) ∧
  (∀ safe kwargs,
     ∃ h,
       hands_over driver (remove driver self (VDict l) safe kwargs s) s
         (mkCall self drv_remove [VDict l; safe] kwargs) h ∧
       overwritten P (dict_at (heap s) l) (dict_at h l)) ∧
  (∀ args kwargs,
     ∃ h,
       hands_over driver (find_one driver self (VDict l) args kwargs s) s
         (mkCall self drv_find_one (VDict l :: args) kwargs) h ∧
       overwritten P (dict_at (heap s) l) (dict_at h l)).
Proof.
  intros Hset. repeat split; intros; eexists.
  - rewrite (save_set _ _ _ _ _ _ _ _ _ _ Hset).
    split; [by apply super_call_hands_over | apply merged_overwritten].
  - rewrite (remove_set _ _ _ _ _ _ _ _ Hset).
    split; [by apply super_call_hands_over | apply merged_overwritten].
  - rewrite (find_one_set _ _ _ _ _ _ _ _ Hset).
    split; [by apply super_call_hands_over | apply merged_overwritten].
Qed.

Lemma same_outside_merged h l P ls :
  l ∈ ls → same_outside ls h (merged h l P).
Proof.
  intros Hl l' Hl'. unfold merged. rewrite lookup_insert_ne; [done|].
  intros ->. done.
Qed.

Lemma same_outside_merged_twice h l1 l2 P :
  same_outside [l1; l2] h (merged (merged h l1 P) l2 P).
Proof.
  intros l' Hl'.
  rewrite (same_outside_merged (merged h l1 P) l2 P [l1; l2]); [|set_solver|done].
  apply (same_outside_merged h l1 P [l1; l2]); [set_solver|done].
Qed.

(** X8.  With the predicate [P] set, an operation that merges it writes
    only to the dicts it was given: in the store handed to the driver
    every other dict is as the caller left it, and the predicate's own
    dict still holds [P], also when the caller passed that very dict. *)
Theorem merge_writes_only_its_arguments s self p P :
  predicate_set s self p P →
  (∀ l manipulate safe check_keys kwargs,
     ∃ h,
       hands_over driver
         (save driver self (VDict l) manipulate safe check_keys kwargs s) s
         (mkCall self drv_save [VDict l; manipulate; safe; check_keys] kwargs)
         h ∧
       same_outside [l] (heap s) h ∧ h !! p = Some P) ∧
  (∀ spec document upsert manipulate safe multi check_keys kwargs,
     ∃ h,
       hands_over driver
         (update driver self (VDict spec) (VDict document) upsert manipulate
                 safe multi check_keys kwargs s) s
         (mkCall self drv_update
            [VDict spec; VDict document; upsert; manipulate; safe; multi;
             check_keys] kwargs) h ∧
       same_outside [spec; document] (heap s) h ∧ h !! p = Some P) ∧
  (∀ l safe kwargs,
     ∃ h,
       hands_over driver (remove driver self (VDict l) safe kwargs s) s
         (mkCall self drv_remove [VDict l; safe] kwargs) h ∧
       same_outside [l] (heap s) h ∧ h !! p = Some P) ∧
  (∀ l args kwargs,
     ∃ h,
       hands_over driver (find_one driver self (VDict l) args kwargs s) s
         (mkCall self drv_find_one (VDict l :: args) kwargs) h ∧
       same_outside [l] (heap s) h ∧ h !! p = Some P) ∧
  (∀ query update upsert sort kwargs,
     ∃ h,
       hands_over driver
         (find_and_modify driver self (VDict query) (VDict update) upsert
                          sort kwargs s) s
         (mkCall self drv_find_and_modify
            [VDict query; VDict update; upsert; sort] kwargs) h ∧
       same_outside [query; update] (heap s) h ∧ h !! p = Some P).
Proof.
  intros Hset. pose proof Hset as (Htf & Hp & _).
  pose proof (predicate_set_at _ _ _ _ Hset) as Hat.
  repeat split; intros; eexists.
  - rewrite (save_set _ _ _ _ _ _ _ _ _ _ Hset).
    split; [by apply super_call_hands_over|]. simpl.
    split; [apply same_outside_merged; set_solver|].
    by apply merged_lookup_predicate.
  - rewrite (update_set _ _ _ _ _ _ _ _ _ _ _ _ Htf), Hat.
    split; [by apply super_call_hands_over|]. simpl.
    split; [apply same_outside_merged_twice|].
    by do 2 apply merged_lookup_predicate.
  - rewrite (remove_set _ _ _ _ _ _ _ _ Hset).
    split; [by apply super_call_hands_over|]. simpl.
    split; [apply same_outside_merged; set_solver|].
    by apply merged_lookup_predicate.
  - rewrite (find_one_set _ _ _ _ _ _ _ _ Hset).
    split; [by apply super_call_hands_over|]. simpl.
    split; [apply same_outside_merged; set_solver|].
    by apply merged_lookup_predicate.
  - rewrite (find_and_modify_set _ _ _ _ _ _ _ _ _ _ Hset).
    split; [by apply super_call_hands_over|]. simpl.
    split; [apply same_outside_merged_twice|].
    by do 2 apply merged_lookup_predicate.
Qed.

(** X9.  With the predicate [P] set, [remove] and [find_one] called with
    something that is not a dict change no dict that exists: the one dict
    they hand to the driver is new, and it is [{_id: identifier}] with the
    pairs of [P] written over it (a key [_id] of [P] replaces the
    identifier). *)
Theorem bare_identifier_spares_the_store s self p P identifier :
  predicate_set s self p P →
  isinstance_dict identifier = false →
  ∃ l d,
    heap s !! l = None ∧
    overwritten P {[ "_id" := identifier ]} d ∧
    (∀ safe kwargs,
       ∃ h,
         hands_over driver
           (remove driver self identifier safe kwargs s) s
           (mkCall self drv_remove [VDict l; safe] kwargs) h ∧
         h !! l = Some d ∧
         ∀ l', is_Some (heap s !! l') → h !! l' = heap s !! l') ∧
    (∀ args kwargs,
       ∃ h,
         hands_over driver
           (find_one driver self identifier args kwargs s) s
           (mkCall self drv_find_one (VDict l :: args) kwargs) h ∧
         h !! l = Some d ∧
         ∀ l', is_Some (heap s !! l') → h !! l' = heap s !! l').
Proof.
  intros Hset Hnot.
  assert (heap s !! fresh (dom (heap s)) = None) as Hfresh
    by apply not_elem_of_dom, is_fresh.
  exists (fresh (dom (heap s))), (dict_update {[ "_id" := identifier ]} P).
  split; [done|]. split; [apply overwritten_union|].
  split; intros; eexists.
  - rewrite (remove_set_id _ _ _ _ _ _ _ _ Hset Hnot).
    split; [by apply super_call_hands_over|]. simpl.
    split; [by rewrite lookup_insert_eq|].
    intros l' [d' Hl']. rewrite lookup_insert_ne; [done|]. congruence.
  - rewrite (find_one_set_id _ _ _ _ _ _ _ _ Hset Hnot).
    split; [by apply super_call_hands_over|]. simpl.
    split; [by rewrite lookup_insert_eq|].
    intros l' [d' Hl']. rewrite lookup_insert_ne; [done|]. congruence.
Qed.

Lemma new_calls_same s s' :
  delegated s' = delegated s → new_calls s s' = [].
Proof. intros Hd. unfold new_calls. rewrite Hd. apply drop_all. Qed.

Lemma truthy_predicate_set s self p :
  tenant_of s self = Some p →
  dict_truthy (dict_at (heap s) p) = true →
  predicate_set s self p (dict_at (heap s) p).
Proof.
  intros Htf Htruth.
  assert (dict_at (heap s) p ≠ ∅) as Hne.
  { intros Hempty. by rewrite Hempty in Htruth. }
  split; [done|]. split; [|done].
  unfold dict_at in *. by destruct (heap s !! p).
Qed.

(** X10.  [insert] never calls the driver's [insert]: whatever it is
    called with and whatever the tenant field is, a driver call it makes
    is a call of [save], with the five positional arguments
    [(doc_or_docs, manipulate, safe, check_keys, continue_on_error)]. *)
Theorem insert_calls_only_save s self doc_or_docs manipulate safe check_keys
    continue_on_error kwargs c h :
  (c, h) ∈ new_calls s
    (insert driver self doc_or_docs manipulate safe check_keys
            continue_on_error kwargs s).2 →
  c = mkCall self drv_save
        [doc_or_docs; manipulate; safe; check_keys; continue_on_error] kwargs.
Proof.
  intros Hin.
  assert (∀ s0, delegated s0 = delegated s →
            (c, h) ∈ new_calls s
              (super_call driver
                 (mkCall self drv_save
                    [doc_or_docs; manipulate; safe; check_keys;
                     continue_on_error] kwargs) s0).2 →
            c = mkCall self drv_save
                  [doc_or_docs; manipulate; safe; check_keys;
                   continue_on_error] kwargs) as Hsuper.
  { intros s0 Hd Hc.
    destruct (super_call_hands_over driver
                (mkCall self drv_save
                   [doc_or_docs; manipulate; safe; check_keys;
                    continue_on_error] kwargs) s0 s Hd) as (Hnew & _).
    rewrite Hnew in Hc. apply list_elem_of_singleton in Hc. congruence. }
  assert (∀ r : result value, (c, h) ∈ new_calls s (r, s).2 → False)
    as Hnone.
  { intros r Hc. rewrite new_calls_same in Hc by done.
    by apply elem_of_nil in Hc. }
  destruct (tenant_of s self) as [p|] eqn:Htf.
  - destruct (dict_truthy (dict_at (heap s) p)) eqn:Htruth.
    + pose proof (truthy_predicate_set _ _ _ Htf Htruth) as Hset.
      destruct (isinstance_list_tuple doc_or_docs) eqn:Hseq.
      * destruct (items doc_or_docs) as [|doc docs'] eqn:Hitems.
        { rewrite (insert_set_empty _ _ _ _ _ _ _ _ _ _ _ Hset Hseq Hitems)
            in Hin. eapply Hsuper; [|exact Hin]. done. }
        rewrite (insert_set_sequence _ _ _ _ _ _ _ _ _ _ _ _ _
                   Hset Hseq Hitems) in Hin.
        destruct doc; rewrite new_calls_same in Hin by done;
          by apply elem_of_nil in Hin.
      * destruct (isinstance_dict doc_or_docs) eqn:Hdict.
        { destruct doc_or_docs; try done.
          rewrite (insert_set _ _ _ _ _ _ _ _ _ _ _ Hset) in Hin.
          eapply Hsuper; [|exact Hin]. done. }
        rewrite (insert_set_other _ _ _ _ _ _ _ _ _ _ _ Hset Hseq Hdict)
          in Hin.
        by destruct (Hnone _ Hin).
    + unfold tenant_of in Htf. unfold insert, bind, truth in Hin.
      simpl in Hin. rewrite Htf, Htruth in Hin. by destruct (Hnone _ Hin).
  - unfold tenant_of in Htf. unfold insert, bind, truth in Hin.
    simpl in Hin. rewrite Htf in Hin. by destruct (Hnone _ Hin).
Qed.



Lemma super_call_state c s0 :
  (super_call driver c s0).2 =
  mkState (driver c (heap s0)).2 (databases s0)
          (delegated s0 ++ [(c, heap s0)]) (aborted s0) (logged s0).
Proof. unfold super_call. by destruct (driver c (heap s0)). Qed.

Lemma merged_again h l P : merged (merged h l P) l P = merged h l P.
Proof.
  unfold merged at 1. rewrite dict_at_merged, decide_True by done.
  unfold merged, dict_update.
  by rewrite insert_insert_eq, (assoc_L (∪)), (idemp_L (∪)).
Qed.

(** X13.  Merging the predicate is idempotent over calls.  With the
    predicate set and a driver that leaves the store alone, [save] of the
    same dict twice makes two driver calls with the same arguments in the
    same store: the second merge changes nothing. *)
Theorem save_again_changes_nothing s self p P l manipulate safe check_keys
    kwargs :
  keeps_store driver →
  predicate_set s self p P →
  let r1 := save driver self (VDict l) manipulate safe check_keys kwargs s in
  let r2 := save driver self (VDict l) manipulate safe check_keys kwargs
                 r1.2 in
  new_calls s r2.2 =
  [(mkCall self drv_save [VDict l; manipulate; safe; check_keys] kwargs,
    merged (heap s) l P);
   (mkCall self drv_save [VDict l; manipulate; safe; check_keys] kwargs,
    merged (heap s) l P)] ∧
  heap r2.2 = heap r1.2.
Proof.
  intros Hkeeps Hset r1 r2.
  assert (r1.2 =
          mkState (merged (heap s) l P) (databases s)
            (delegated s ++
             [(mkCall self drv_save [VDict l; manipulate; safe; check_keys]
                      kwargs, merged (heap s) l P)])
            (aborted s) (logged s)) as Hr1.
  { unfold r1. rewrite (save_set _ _ _ _ _ _ _ _ _ _ Hset), super_call_state.
    simpl. by rewrite Hkeeps. }
  assert (predicate_set r1.2 self p P) as Hset1.
  { destruct Hset as (Htf & Hp & HP). rewrite Hr1.
    split; [done|]. split; [|done]. simpl.
    by apply merged_lookup_predicate. }
  unfold r2. rewrite (save_set _ _ _ _ _ _ _ _ _ _ Hset1), super_call_state.
  rewrite Hr1. simpl. rewrite Hkeeps, merged_again. split; [|done].
  apply new_calls_app. simpl. by rewrite <- (assoc_L (++)).
Qed.

(** *** What the operations leave alone *)

Lemma bind_keeps_databases {A B} (m : M A) (k : A → M B) :
  keeps_databases m → (∀ a, keeps_databases (k a)) →
  keeps_databases (bind m k).
Proof.
  intros Hm Hk s. unfold bind. specialize (Hm s).
  destruct (m s) as [[a|e] s']; simpl in *; [|done].
  by rewrite Hk.
Qed.

Lemma ret_keeps_databases {A} (a : A) : keeps_databases (ret a).
Proof. done. Qed.

Lemma raise_keeps_databases {A} e : keeps_databases (@raise A e).
Proof. done. Qed.

Lemma abort_keeps_databases {A} code : keeps_databases (@abort A code).
Proof. done. Qed.

Lemma tenant_field_keeps_databases db : keeps_databases (tenant_field db).
Proof. done. Qed.

Lemma truth_keeps_databases tf : keeps_databases (truth tf).
Proof. done. Qed.

Lemma logging_error_keeps_databases v : keeps_databases (logging_error v).
Proof. done. Qed.

Lemma new_dict_keeps_databases d : keeps_databases (new_dict d).
Proof. done. Qed.

Lemma update_method_keeps_databases target other :
  keeps_databases (update_method target other).
Proof. by destruct target, other. Qed.

Lemma star_keeps_databases v : keeps_databases (star v).
Proof. by destruct v. Qed.

Lemma super_call_keeps_databases c : keeps_databases (super_call driver c).
Proof. intros s. by rewrite super_call_state. Qed.

Lemma for_each_keeps_databases {A} (xs : list A) (body : A → M unit) :
  (∀ x, keeps_databases (body x)) → keeps_databases (for_each xs body).
Proof.
  intros Hbody. induction xs as [|x xs IH]; simpl.
  - apply ret_keeps_databases.
  - apply bind_keeps_databases; [apply Hbody | by intros _].
Qed.

#[local] Hint Resolve ret_keeps_databases raise_keeps_databases
  abort_keeps_databases tenant_field_keeps_databases truth_keeps_databases
  logging_error_keeps_databases new_dict_keeps_databases
  update_method_keeps_databases star_keeps_databases
  super_call_keeps_databases : keeps_dbs.

(** Takes a computation apart along its binds, branches and loops. *)
Ltac keeps_databases_tac :=
  repeat (first
    [ apply bind_keeps_databases; [|intros ?]
    | apply for_each_keeps_databases; intros ?
    | match goal with
      | |- keeps_databases (if ?b then _ else _) => destruct b
      | |- keeps_databases (match ?x with _ => _ end) => destruct x
      end
    | solve [auto with keeps_dbs] ]).

(** X14.  No operation of a collection handle assigns a tenant field or
    makes a [Database] object: whatever the arguments, and whether the
    call returns or raises, the [Database] objects after the call are the
    ones before it. *)
Theorem operations_keep_databases self kwargs :
  (∀ to_save manipulate safe check_keys,
     keeps_databases
       (save driver self to_save manipulate safe check_keys kwargs)) ∧
  (∀ doc_or_docs manipulate safe check_keys continue_on_error,
     keeps_databases
       (insert driver self doc_or_docs manipulate safe check_keys
               continue_on_error kwargs)) ∧
  (∀ spec document upsert manipulate safe multi check_keys,
     keeps_databases
       (update driver self spec document upsert manipulate safe multi
               check_keys kwargs)) ∧
  (∀ spec_or_id safe,
     keeps_databases (remove driver self spec_or_id safe kwargs)) ∧
  (∀ spec_or_id args,
     keeps_databases (find_one driver self spec_or_id args kwargs)) ∧
  (∀ args, keeps_databases (find driver self args kwargs)) ∧
  (∀ query update upsert sort,
     keeps_databases
       (find_and_modify driver self query update upsert sort kwargs)) ∧
  (∀ args, keeps_databases (find_one_or_404 driver self args kwargs)).
Proof.
  repeat split; intros.
  - unfold save. keeps_databases_tac.
  - unfold insert. keeps_databases_tac.
  - unfold update. keeps_databases_tac.
  - unfold remove. keeps_databases_tac.
  - unfold find_one. keeps_databases_tac.
  - unfold find. keeps_databases_tac.
  - unfold find_and_modify. keeps_databases_tac.
  - unfold find_one_or_404, call_find_one, find_one. keeps_databases_tac.
Qed.

Lemma raise_keeps_aborted {A} e : keeps_aborted (@raise A e).
Proof. done. Qed.

Lemma star_keeps_aborted v : keeps_aborted (star v).
Proof. by destruct v. Qed.

Lemma for_each_keeps_aborted {A} (xs : list A) (body : A → M unit) :
  (∀ x, keeps_aborted (body x)) → keeps_aborted (for_each xs body).
Proof.
  intros Hbody. induction xs as [|x xs IH]; simpl.
  - apply ret_keeps_aborted.
  - apply bind_keeps_aborted; [apply Hbody | by intros _].
Qed.

#[local] Hint Resolve ret_keeps_aborted raise_keeps_aborted
  tenant_field_keeps_aborted truth_keeps_aborted logging_error_keeps_aborted
  new_dict_keeps_aborted update_method_keeps_aborted star_keeps_aborted
  super_call_keeps_aborted : keeps.

(** Takes a computation apart along its binds, branches and loops. *)
Ltac keeps_aborted_tac :=
  repeat (first
    [ apply bind_keeps_aborted; [|intros ?]
    | apply for_each_keeps_aborted; intros ?
    | match goal with
      | |- keeps_aborted (if ?b then _ else _) => destruct b
      | |- keeps_aborted (match ?x with _ => _ end) => destruct x
      end
    | solve [auto with keeps] ]).

(** X15.  Of the operations of a collection handle only
    [find_one_or_404] signals the web framework: [save], [insert],
    [update], [remove], [find_one], [find] and [find_and_modify] never
    call [abort], whatever the arguments and whether they return or
    raise. *)
Theorem only_find_one_or_404_aborts self kwargs :
  (∀ to_save manipulate safe check_keys,
     keeps_aborted
       (save driver self to_save manipulate safe check_keys kwargs)) ∧
  (∀ doc_or_docs manipulate safe check_keys continue_on_error,
     keeps_aborted
       (insert driver self doc_or_docs manipulate safe check_keys
               continue_on_error kwargs)) ∧
  (∀ spec document upsert manipulate safe multi check_keys,
     keeps_aborted
       (update driver self spec document upsert manipulate safe multi
               check_keys kwargs)) ∧
  (∀ spec_or_id safe,
     keeps_aborted (remove driver self spec_or_id safe kwargs)) ∧
  (∀ spec_or_id args,
     keeps_aborted (find_one driver self spec_or_id args kwargs)) ∧
  (∀ args, keeps_aborted (find driver self args kwargs)) ∧
  (∀ query update upsert sort,
     keeps_aborted
       (find_and_modify driver self query update upsert sort kwargs)).
Proof.
  repeat split; intros.
  - unfold save. keeps_aborted_tac.
  - unfold insert. keeps_aborted_tac.
  - unfold update. keeps_aborted_tac.
  - unfold remove. keeps_aborted_tac.
  - unfold find_one. keeps_aborted_tac.
  - unfold find. keeps_aborted_tac.
  - unfold find_and_modify. keeps_aborted_tac.
Qed.

End Operations.

(** *** The further properties on the example states *)

Lemma null_driver_keeps_store : keeps_store null_driver.
Proof. intros c h. reflexivity. Defined.

Lemma predicate_set_later_applies_witness :
  is_Some (databases tenants !! database users_plain) ∧
  heap tenants !! 2%positive = Some {[ "tenant" := VStr "t1" ]} ∧
  ({[ "tenant" := VStr "t1" ]} : gmap string value) ≠ ∅ ∧
  let s1 := (set_tenant_field (database users_plain) (Some 2%positive)
               tenants).2 in
  ∃ h,
    hands_over null_driver
      (save null_driver users_plain (VDict 3%positive) (VBool true) VNone
            (VBool true) ∅ s1) s1
      (mkCall users_plain drv_save
         [VDict 3%positive; VBool true; VNone; VBool true] ∅) h ∧
    has_pairs h {[ "tenant" := VStr "t1" ]} (VDict 3%positive).
Proof.
  assert (is_Some (databases tenants !! database users_plain)) as Hdb
    by (eexists; reflexivity).
  assert (({[ "tenant" := VStr "t1" ]} : gmap string value) ≠ ∅) as HP
    by apply map_non_empty_singleton.
  split; [exact Hdb|]. split; [reflexivity|]. split; [exact HP|].
  apply (proj1 (predicate_set_later_applies null_driver tenants users_plain
                  2%positive _ 3%positive (VBool true) VNone (VBool true) ∅
                  Hdb eq_refl HP)).
Defined.

Lemma empty_predicate_scopes_nothing_witness :
  predicate_empty empty_scoped users_t1 2%positive ∧
  insert null_driver users_t1 (VDict 3%positive) (VBool true) VNone
         (VBool true) (VBool false) ∅ empty_scoped =
  (Ok VNone, empty_scoped).
Proof.
  assert (predicate_empty empty_scoped users_t1 2%positive) as Hempty
    by (split; reflexivity).
  split; [exact Hempty|].
  apply (proj1 (proj2 (empty_predicate_scopes_nothing null_driver
                         empty_scoped users_t1 2%positive Hempty))).
Defined.

Lemma predicate_overrides_caller_keys_witness :
  predicate_set tenants users_t2 5%positive {[ "tenant" := VStr "t2" ]} ∧
  ∃ h,
    hands_over null_driver
      (find_one null_driver users_t2 (VDict 2%positive) [] ∅ tenants) tenants
      (mkCall users_t2 drv_find_one [VDict 2%positive] ∅) h ∧
    overwritten {[ "tenant" := VStr "t2" ]} (dict_at (heap tenants) 2%positive)
                (dict_at h 2%positive).
Proof.
  assert (predicate_set tenants users_t2 5%positive
            {[ "tenant" := VStr "t2" ]}) as Hset.
  { repeat split. apply map_non_empty_singleton. }
  split; [exact Hset|].
  apply (proj2 (proj2 (predicate_overrides_caller_keys null_driver tenants
                         users_t2 _ _ 2%positive Hset))).
Defined.

Lemma merge_writes_only_its_arguments_witness :
  predicate_set tenants users_t1 2%positive {[ "tenant" := VStr "t1" ]} ∧
  ∃ h,
    hands_over null_driver
      (save null_driver users_t1 (VDict 3%positive) (VBool true) VNone
            (VBool true) ∅ tenants) tenants
      (mkCall users_t1 drv_save
         [VDict 3%positive; VBool true; VNone; VBool true] ∅) h ∧
    same_outside [3%positive] (heap tenants) h ∧
    h !! 2%positive = Some {[ "tenant" := VStr "t1" ]}.
Proof.
  assert (predicate_set tenants users_t1 2%positive
            {[ "tenant" := VStr "t1" ]}) as Hset.
  { repeat split. apply map_non_empty_singleton. }
  split; [exact Hset|].
  apply (proj1 (merge_writes_only_its_arguments null_driver tenants users_t1
                  _ _ Hset)).
Defined.

Lemma bare_identifier_spares_the_store_witness :
  predicate_set tenants users_t1 2%positive {[ "tenant" := VStr "t1" ]} ∧
  isinstance_dict (VInt 5) = false ∧
  ∃ l d,
    heap tenants !! l = None ∧
    overwritten {[ "tenant" := VStr "t1" ]} {[ "_id" := VInt 5 ]} d ∧
    ∀ safe kwargs,
      ∃ h,
        hands_over null_driver
          (remove null_driver users_t1 (VInt 5) safe kwargs tenants) tenants
          (mkCall users_t1 drv_remove [VDict l; safe] kwargs) h ∧
        h !! l = Some d ∧
        ∀ l', is_Some (heap tenants !! l') → h !! l' = heap tenants !! l'.
Proof.
  assert (predicate_set tenants users_t1 2%positive
            {[ "tenant" := VStr "t1" ]}) as Hset.
  { repeat split. apply map_non_empty_singleton. }
  split; [exact Hset|]. split; [reflexivity|].
  destruct (bare_identifier_spares_the_store null_driver tenants users_t1
              _ _ (VInt 5) Hset eq_refl) as (l & d & Hl & Hd & Hremove & _).
  exists l, d. split; [exact Hl|]. split; [exact Hd | exact Hremove].
Defined.

Lemma insert_calls_only_save_witness :
  (mkCall users_t1 drv_save
     [VDict 3%positive; VBool true; VNone; VBool true; VBool false] ∅,
   <[3%positive := {[ "name" := VStr "a"; "tenant" := VStr "t1" ]}]>
     (heap tenants))
  ∈ new_calls tenants
      (insert null_driver users_t1 (VDict 3%positive) (VBool true) VNone
              (VBool true) (VBool false) ∅ tenants).2 ∧
  mkCall users_t1 drv_save
    [VDict 3%positive; VBool true; VNone; VBool true; VBool false] ∅ =
  mkCall users_t1 drv_save
    [VDict 3%positive; VBool true; VNone; VBool true; VBool false] ∅.
Proof.
  assert ((mkCall users_t1 drv_save
             [VDict 3%positive; VBool true; VNone; VBool true; VBool false] ∅,
           <[3%positive := {[ "name" := VStr "a"; "tenant" := VStr "t1" ]}]>
             (heap tenants))
          ∈ new_calls tenants
              (insert null_driver users_t1 (VDict 3%positive) (VBool true)
                      VNone (VBool true) (VBool false) ∅ tenants).2) as Hin.
  { apply list_elem_of_singleton. reflexivity. }
  split; [exact Hin|].
  apply (insert_calls_only_save null_driver tenants users_t1
           (VDict 3%positive) (VBool true) VNone (VBool true) (VBool false) ∅
           _ _ Hin).
Defined.



Lemma save_again_changes_nothing_witness :
  keeps_store null_driver ∧
  predicate_set tenants users_t1 2%positive {[ "tenant" := VStr "t1" ]} ∧
  let r1 := save null_driver users_t1 (VDict 3%positive) (VBool true) VNone
                 (VBool true) ∅ tenants in
  let r2 := save null_driver users_t1 (VDict 3%positive) (VBool true) VNone
                 (VBool true) ∅ r1.2 in
  heap r2.2 = heap r1.2.
Proof.
  assert (predicate_set tenants users_t1 2%positive
            {[ "tenant" := VStr "t1" ]}) as Hset.
  { repeat split. apply map_non_empty_singleton. }
  split; [exact null_driver_keeps_store|]. split; [exact Hset|].
  apply (proj2 (save_again_changes_nothing null_driver tenants users_t1
                  _ _ 3%positive (VBool true) VNone (VBool true) ∅
                  null_driver_keeps_store Hset)).
Defined.
